(** * Alert resolution and event state of [selfdrive/controls/lib/events.py]

    A shallow embedding of the classes [Priority], [ET], [Alert] and
    [Events] and of the module-level catalog [EVENTS], followed by the
    properties of the engine that are established on it.

    Conventions of the embedding.
    - Python [float] times (durations, creation delays, the control period
      [DT_CTRL]) are rationals [Qc]: the numbers written in the source.
      Their comparisons and products are taken on the rationals.  The
      quotient [duration / DT_CTRL] of [Alert.__init__], whose truncation
      is what an alert stores, is taken in binary64 floating point, on the
      floats the two numbers are read as.
    - Event identifiers are the raw values of the capnp enumeration
      [car.CarEvent.EventName], a number [N].
    - An exception is a value of [exn]; a computation that may raise
      returns a [Res].
    - [Alert] objects are mutable and shared in Python.  The objects written
      in the [EVENTS] literal live in the catalog, the objects returned by
      the alert callbacks live in a list of allocated objects, and
      [create_alerts] returns references [AlertRef] into the two. *)

From Stdlib Require Import QArith Qcanon Qround.
From Stdlib Require SpecFloat.
From stdpp Require Import gmap strings list fin_maps numbers.

Local Open Scope string_scope.
Local Open Scope Z_scope.
Local Open Scope list_scope.
Local Open Scope stdpp_scope.

(** ** Enumerations *)

(** [class Priority(IntEnum)] *)
Inductive Priority : Set :=
  | LOWEST | LOWER | LOW | MID | HIGH | HIGHEST.

(** The integer an [IntEnum] member stands for. *)
Definition Priority_value (p : Priority) : Z :=
  match p with
  | LOWEST => 0
  | LOWER => 1
  | LOW => 2
  | MID => 3
  | HIGH => 4
  | HIGHEST => 5
  end.

#[global] Instance Priority_eq_dec : EqDecision Priority.
Proof. solve_decision. Defined.

(** [class ET]: the event types are plain strings. *)
Module ET.
Definition ENABLE : string := "enable".
Definition PRE_ENABLE : string := "preEnable".
Definition NO_ENTRY : string := "noEntry".
Definition WARNING : string := "warning".
Definition USER_DISABLE : string := "userDisable".
Definition SOFT_DISABLE : string := "softDisable".
Definition IMMEDIATE_DISABLE : string := "immediateDisable".
Definition PERMANENT : string := "permanent".
End ET.

(** [log.ControlsState.AlertStatus] and [log.ControlsState.AlertSize]. *)
Inductive AlertStatus : Set := status_normal | status_userPrompt | status_critical.
Inductive AlertSize : Set := size_none | size_small | size_mid | size_full.

#[global] Instance AlertStatus_eq_dec : EqDecision AlertStatus.
Proof. solve_decision. Defined.
#[global] Instance AlertSize_eq_dec : EqDecision AlertSize.
Proof. solve_decision. Defined.

(** [car.CarControl.HUDControl.VisualAlert] and [AudibleAlert] are kept as
    the names of their enumerants. *)
Abbreviation VisualAlert := string (only parsing).
Abbreviation AudibleAlert := string (only parsing).

(** Raw value of a [car.CarEvent.EventName]. *)
Abbreviation EventName := N (only parsing).

(** ** Exceptions *)

Inductive exn : Set :=
  | KeyError
  | TypeError.

#[global] Instance exn_eq_dec : EqDecision exn.
Proof. solve_decision. Defined.

(** ** Numbers *)

(** Python's [int(x)] on a float: truncation toward zero. *)
Definition int (x : Qc) : Z := Z.quot (Qnum x) (Z.pos (Qden x)).

(** [floor], for comparison with [int]. *)
Definition floor (x : Qc) : Z := Qfloor x.

Definition Qc_of_nat (n : nat) : Qc := Qc_of_Z (Z.of_nat n).

(** *** Binary floating point

    A Python [float] is an IEEE 754 binary64 number.  The format and its
    division are those of the Standard Library's specification
    [SpecFloat]: 53 bits of precision, exponents below 1024, rounding to
    the nearest with ties to even. *)
Definition float : Set := SpecFloat.spec_float.

(** The quotient of the format, infinities and NaN included. *)
Definition float_div (x y : float) : float := SpecFloat.SFdiv 53 1024 x y.

(** The float a rational is read as: the binary64 nearest to it, which is
    the correctly rounded quotient of its numerator by its denominator.
    A literal such as [0.29] is read this way. *)
Definition float_of_Qc (x : Qc) : float :=
  match Qnum x with
  | Z0 => SpecFloat.S754_zero false
  | Zpos n =>
      float_div (SpecFloat.S754_finite false n 0)
        (SpecFloat.S754_finite false (Qden x) 0)
  | Zneg n =>
      float_div (SpecFloat.S754_finite true n 0)
        (SpecFloat.S754_finite false (Qden x) 0)
  end.

(** [float.__truediv__]: [x / y] raises [ZeroDivisionError], here [None],
    when [y] is a zero. *)
Definition float_truediv (x y : float) : option float :=
  match y with
  | SpecFloat.S754_zero _ => None
  | _ => Some (float_div x y)
  end.

(** [int(x)] on a float: truncation toward zero.  On an infinity it raises
    [OverflowError] and on a NaN [ValueError], here [None]. *)
Definition float_int (x : float) : option Z :=
  match x with
  | SpecFloat.S754_zero _ => Some 0
  | SpecFloat.S754_finite s m e =>
      Some (SpecFloat.cond_Zopp s (Z.shiftl (Z.pos m) e))
  | SpecFloat.S754_infinity _ | SpecFloat.S754_nan => None
  end.

(** The rational a finite float is: [m * 2 ^ e] with its sign. *)
Definition float_value (x : float) : option Qc :=
  match x with
  | SpecFloat.S754_zero _ => Some 0%Qc
  | SpecFloat.S754_finite s m e =>
      Some match e with
           | Zneg p => Q2Qc (SpecFloat.cond_Zopp s (Z.pos m) # Pos.pow 2 p)
           | _ => Qc_of_Z (SpecFloat.cond_Zopp s (Z.pos m) * 2 ^ e)
           end
  | SpecFloat.S754_infinity _ | SpecFloat.S754_nan => None
  end.

(** A float whose sign bit is clear, or a NaN. *)
Definition float_nonneg (x : float) : Prop :=
  match x with
  | SpecFloat.S754_zero s | SpecFloat.S754_infinity s
  | SpecFloat.S754_finite s _ _ => s = false
  | SpecFloat.S754_nan => True
  end.

(** ** [class Alert] *)

Record Alert : Type := mkAlert {
  alert_text_1 : string;
  alert_text_2 : string;
  alert_status : AlertStatus;
  alert_size : AlertSize;
  priority : Priority;
  visual_alert : VisualAlert;
  audible_alert : AudibleAlert;
  duration : Z;
  alert_rate : Qc;
  creation_delay : Qc;
  alert_type : string;
  event_type : option string
}.

#[global] Instance Alert_eq_dec : EqDecision Alert.
Proof. solve_decision. Defined.

Section AlertClass.
(** [from common.realtime import DT_CTRL]: the control period, a positive
    constant of another module. *)
Variable DT_CTRL : Qc.

(** [int(duration / DT_CTRL)] of [Alert.__init__]: the two numbers are
    floats, their quotient is the binary64 quotient, and [int] truncates it.
    [None]: the expression raises ([ZeroDivisionError] when [DT_CTRL] is
    read as a zero, [OverflowError] when the quotient is infinite) and no
    alert is constructed. *)
Definition cycles (duration : Qc) : option Z :=
  float_truediv (float_of_Qc duration) (float_of_Qc DT_CTRL) ≫= float_int.

(** [Alert.__init__].  The two defaulted arguments [alert_rate] and
    [creation_delay] are passed explicitly, [0] being the default.  This is
    the object of a call that returns; where [cycles] is [None] the call
    raises, there is no object, and the duration below is [0]. *)
Definition Alert_init
    (alert_text_1 alert_text_2 : string)
    (alert_status : AlertStatus) (alert_size : AlertSize)
    (priority : Priority)
    (visual_alert : VisualAlert) (audible_alert : AudibleAlert)
    (duration : Qc) (alert_rate : Qc) (creation_delay : Qc) : Alert :=
  {| alert_text_1 := alert_text_1;
     alert_text_2 := alert_text_2;
     alert_status := alert_status;
     alert_size := alert_size;
     priority := priority;
     visual_alert := visual_alert;
     audible_alert := audible_alert;
     duration := default 0 (cycles duration);
     alert_rate := alert_rate;
     creation_delay := creation_delay;
     alert_type := "";
     event_type := None |}.

(** [tr]: the line of the language file with that number. *)
Variable tr : nat → string.

(** The subclasses of [Alert] only fix arguments of [Alert.__init__]. *)

Definition NoEntryAlert (alert_text_2 : string) (visual_alert : VisualAlert) : Alert :=
  Alert_init (tr 1) alert_text_2 status_normal size_mid LOW visual_alert
    "refuse" (Qc_of_Z 3) 0%Qc 0%Qc.

Definition SoftDisableAlert (alert_text_2 : string) : Alert :=
  Alert_init (tr 2) alert_text_2 status_userPrompt size_full MID "steerRequired"
    "warningSoft" (Qc_of_Z 2) 0%Qc 0%Qc.

Definition ImmediateDisableAlert (alert_text_2 : string) : Alert :=
  Alert_init (tr 4) alert_text_2 status_critical size_full HIGHEST "steerRequired"
    "warningImmediate" (Qc_of_Z 4) 0%Qc 0%Qc.

Definition NormalPermanentAlert (alert_text_1 alert_text_2 : string)
    (duration : Qc) (priority : Priority) (creation_delay : Qc) : Alert :=
  Alert_init alert_text_1 alert_text_2 status_normal
    (if bool_decide (String.length alert_text_2 = 0%nat) then size_small else size_mid)
    priority "none" "none" duration 0%Qc creation_delay.
End AlertClass.

(** [Alert.__gt__] *)
Definition Alert_gt (self alert2 : Alert) : bool :=
  bool_decide (Priority_value (priority self) > Priority_value (priority alert2)).

(** ** The catalog [EVENTS] *)

(** A pure computation that returns or raises. *)
Inductive outcome (A : Type) : Type :=
  | Returns (a : A)
  | Raises (x : exn).
Arguments Returns {A} a.
Arguments Raises {A} x.

Section Engine.
(** The values a caller passes in [callback_args]
    ([car.CarParams], [messaging.SubMaster], [bool], [int]). *)
Context {PyVal : Type}.

(** [AlertCallbackType]: called as [alert( *callback_args )], a callback
    builds a new [Alert] or raises.  It is a function of its arguments. *)
Definition AlertCallbackType : Type := list PyVal → outcome Alert.

(** [Union[Alert, AlertCallbackType]], told apart in the source by
    [isinstance(alert, Alert)]. *)
Inductive CatalogEntry : Type :=
  | Fixed (alert : Alert)
  | Dynamic (callback : AlertCallbackType).

(** [EVENTS: Dict[int, Dict[str, Union[Alert, AlertCallbackType]]]] *)
Abbreviation Catalog := (gmap N (gmap string CatalogEntry)).

(** ** [class Events] *)

Record Events : Type := mkEvents {
  events : list EventName;
  static_events : list EventName;
  events_prev : gmap N nat
}.

(** [Events.__init__] *)
Definition Events_init (EVENTS : Catalog) : Events :=
  {| events := [];
     static_events := [];
     events_prev := (λ _, 0%nat) <$> EVENTS |}.

(** [Events.names] *)
Definition names (self : Events) : list EventName := events self.

(** [Events.__len__] *)
Definition Events_len (self : Events) : nat := length (events self).

(** [Events.add] *)
Definition add (event_name : EventName) (static : bool) (self : Events) : Events :=
  {| events := events self ++ [event_name];
     static_events :=
       if static then static_events self ++ [event_name] else static_events self;
     events_prev := events_prev self |}.

(** [Events.clear].  The new [events] is a copy of [static_events]: a
    later [add] on one does not reach the other. *)
Definition clear (self : Events) : Events :=
  {| events := static_events self;
     static_events := static_events self;
     events_prev :=
       map_imap
         (λ k v, Some (if bool_decide (k ∈ events self) then (v + 1)%nat else 0%nat))
         (events_prev self) |}.

(** [Events.any] *)
Definition any (EVENTS : Catalog) (event_type : string) (self : Events) : bool :=
  existsb
    (λ e, bool_decide (event_type ∈ (dom (default ∅ (EVENTS !! e)) : gset string)))
    (events self).

(** ** The wire form [car.CarEvent] *)

(** Modelled from the spec: the capnp struct [car.CarEvent] is declared in
    the [cereal] schema, which is not part of this module.  An event on the
    wire is its identifier together with the set of category flags that
    are set. *)
Record CarEvent : Type := mkCarEvent {
  name : EventName;
  flags : gset string
}.

(** [car.CarEvent.new_message()] *)
Definition CarEvent_new_message : CarEvent :=
  {| name := 0%N; flags := ∅ |}.

(** [setattr(event, event_type, True)] *)
Definition CarEvent_set_flag (event_type : string) (event : CarEvent) : CarEvent :=
  {| name := name event; flags := {[event_type]} ∪ flags event |}.

(** [Events.add_from_msg] *)
Definition add_from_msg (msg : list CarEvent) (self : Events) : Events :=
  foldl
    (λ self e,
       {| events := events self ++ [name e];
          static_events := static_events self;
          events_prev := events_prev self |})
    self msg.

(** [Events.to_msg] *)
Definition to_msg (EVENTS : Catalog) (self : Events) : list CarEvent :=
  foldl
    (λ ret event_name,
       let event := CarEvent_new_message in
       let event := {| name := event_name; flags := flags event |} in
       let event :=
         set_fold CarEvent_set_flag event
           (dom (default ∅ (EVENTS !! event_name)) : gset string) in
       ret ++ [event])
    [] (events self).

(** ** The state [create_alerts] runs in *)

(** A reference to an [Alert] object: the object stored in the catalog
    under an event and an event type, or the [i]-th object built by a
    callback. *)
Inductive AlertRef : Type :=
  | InCatalog (e : EventName) (et : string)
  | Allocated (i : nat).

#[global] Instance AlertRef_eq_dec : EqDecision AlertRef.
Proof. solve_decision. Defined.

(** The module-level catalog, the objects built by callbacks so far, and
    the [Events] instance the method is called on. *)
Record World : Type := mkWorld {
  EVENTS : Catalog;
  allocated : list Alert;
  self : Events
}.

(** The result of a step: a value or an exception, and the state left
    behind in both cases. *)
Inductive Res (A : Type) : Type :=
  | Ok (a : A) (w : World)
  | Raise (x : exn) (w : World).
Arguments Ok {A} a w.
Arguments Raise {A} x w.

Definition M (A : Type) : Type := World → Res A.

Definition M_ret {A} (a : A) : M A := λ w, Ok a w.

Definition M_bind {A B} (k : A → M B) (m : M A) : M B :=
  λ w, match m w with
       | Ok a w' => k a w'
       | Raise x w' => Raise x w'
       end.

#[global] Instance M_MRet : MRet M := @M_ret.
#[global] Instance M_MBind : MBind M := @M_bind.

Definition raise {A} (x : exn) : M A := λ w, Raise x w.

Definition get_world : M World := λ w, Ok w w.

(** [d[k]] on a dictionary *)
Definition subscript {K V} `{Countable K} (d : gmap K V) (k : K) : M V :=
  match d !! k with
  | Some v => mret v
  | None => raise KeyError
  end.

(** [alert( *callback_args )]: the callback runs and the object it built
    is allocated; the result is the new reference and the object's
    fields. *)
Definition call (callback : AlertCallbackType) (callback_args : list PyVal)
  : M (AlertRef * Alert) :=
  match callback callback_args with
  | Returns a =>
      λ w, Ok (Allocated (length (allocated w)), a)
              {| EVENTS := EVENTS w;
                 allocated := allocated w ++ [a];
                 self := self w |}
  | Raises x => raise x
  end.

(** The object a reference points to. *)
Definition deref (w : World) (r : AlertRef) : option Alert :=
  match r with
  | InCatalog e et =>
      match EVENTS w !! e ≫= (.!! et) with
      | Some (Fixed a) => Some a
      | _ => None
      end
  | Allocated i => allocated w !! i
  end.

Definition on_fixed (f : Alert → Alert) (x : CatalogEntry) : CatalogEntry :=
  match x with
  | Fixed a => Fixed (f a)
  | Dynamic c => Dynamic c
  end.

(** The state after the object behind [r] has been changed by [f], in
    place, where it lives. *)
Definition update_alert (r : AlertRef) (f : Alert → Alert) (w : World) : World :=
  match r with
  | InCatalog e et =>
      {| EVENTS := alter (alter (on_fixed f) et) e (EVENTS w);
         allocated := allocated w;
         self := self w |}
  | Allocated i =>
      {| EVENTS := EVENTS w;
         allocated := alter f i (allocated w);
         self := self w |}
  end.

(** An attribute assignment [alert.field = v]. *)
Definition assign (r : AlertRef) (f : Alert → Alert) : M unit :=
  λ w, Ok tt (update_alert r f w).

Definition set_alert_type (v : string) (a : Alert) : Alert :=
  {| alert_text_1 := alert_text_1 a; alert_text_2 := alert_text_2 a;
     alert_status := alert_status a; alert_size := alert_size a;
     priority := priority a; visual_alert := visual_alert a;
     audible_alert := audible_alert a; duration := duration a;
     alert_rate := alert_rate a; creation_delay := creation_delay a;
     alert_type := v; event_type := event_type a |}.

Definition set_event_type (v : option string) (a : Alert) : Alert :=
  {| alert_text_1 := alert_text_1 a; alert_text_2 := alert_text_2 a;
     alert_status := alert_status a; alert_size := alert_size a;
     priority := priority a; visual_alert := visual_alert a;
     audible_alert := audible_alert a; duration := duration a;
     alert_rate := alert_rate a; creation_delay := creation_delay a;
     alert_type := alert_type a; event_type := v |}.

(** [for x in l: body], with the local variables the body updates. *)
Fixpoint for_each {A S} (l : list A) (body : A → S → M S) (s : S) : M S :=
  match l with
  | [] => mret s
  | x :: l' => s' ← body x s; for_each l' body s'
  end.

Section CreateAlerts.
(** [DT_CTRL], and [EVENT_NAME], the name of each enumerant of the
    schema; both are constants of the process. *)
Variable DT_CTRL : Qc.
Variable EVENT_NAME : gmap N string.

(** The body of the inner loop of [create_alerts], for one event [e]
    and one event type [et].  The variable [alert] is the reference to the
    object together with the fields the object has when it is bound; the
    object is not assigned to between that point and the test of its
    creation delay. *)
Definition create_alert (callback_args : list PyVal) (types : gset string)
    (e : EventName) (et : string) (ret : list AlertRef) : M (list AlertRef) :=
  if bool_decide (et ∈ types) then
    w ← get_world;
    d ← subscript (EVENTS w) e;
    entry ← subscript d et;
    alert ← match entry with
            | Fixed a => mret (InCatalog e et, a)
            | Dynamic callback => call callback callback_args
            end;
    w ← get_world;
    prev ← subscript (events_prev (self w)) e;
    if bool_decide (creation_delay alert.2 ≤ DT_CTRL * Qc_of_nat (prev + 1))%Qc then
      event_name ← subscript EVENT_NAME e;
      assign alert.1 (set_alert_type (event_name +:+ "/" +:+ et));;
      assign alert.1 (set_event_type (Some et));;
      mret (ret ++ [alert.1])
    else mret ret
  else mret ret.

(** [Events.create_alerts] *)
Definition create_alerts (event_types : list string)
    (callback_args : option (list PyVal)) : M (list AlertRef) :=
  let callback_args := default [] callback_args in
  w ← get_world;
  for_each (events (self w))
    (λ e ret,
       w ← get_world;
       types ← subscript (EVENTS w) e;
       for_each event_types (create_alert callback_args (dom types) e) ret)
    [].
End CreateAlerts.
End Engine.

Arguments Ok {PyVal A} a w.
Arguments Raise {PyVal A} x w.
Arguments CatalogEntry : clear implicits.
Arguments AlertCallbackType : clear implicits.
Arguments World : clear implicits.
Arguments M : clear implicits.
Arguments Res : clear implicits.

(** ** Sequences of method calls *)

Section Calls.
Context {PyVal : Type}.

(** A call of one of the methods of [Events] that change the instance. *)
Inductive method_call : Type :=
  | call_add (event_name : EventName) (static : bool)
  | call_clear
  | call_add_from_msg (msg : list CarEvent).

Definition run_call (c : method_call) (self : Events) : Events :=
  match c with
  | call_add event_name static => add event_name static self
  | call_clear => clear self
  | call_add_from_msg msg => add_from_msg msg self
  end.

Definition run_calls (cs : list method_call) (self : Events) : Events :=
  foldl (λ self c, run_call c self) self cs.

(** The instances a process can hold: built by [Events()] and changed by
    method calls only. *)
Inductive reachable (EVENTS : gmap N (gmap string (CatalogEntry PyVal)))
  : Events → Prop :=
  | reachable_init : reachable EVENTS (Events_init EVENTS)
  | reachable_call c self :
      reachable EVENTS self → reachable EVENTS (run_call c self).

(** One control cycle: [clear()], then the events asserted in the cycle,
    each with its [static] flag. *)
Definition cycle (adds : list (EventName * bool)) (self : Events) : Events :=
  foldl (λ self a, add a.1 a.2 self) (clear self) adds.

Definition run_cycles (hist : list (list (EventName * bool))) (self : Events)
  : Events :=
  foldl (λ self adds, cycle adds self) self hist.
End Calls.

(** ** The order on priorities of the specification *)

(** Each level is immediately above the next one in
    [HIGHEST > HIGH > MID > LOW > LOWER > LOWEST]. *)
Inductive Priority_next_below : Priority → Priority → Prop :=
  | HIGHEST_HIGH : Priority_next_below HIGHEST HIGH
  | HIGH_MID : Priority_next_below HIGH MID
  | MID_LOW : Priority_next_below MID LOW
  | LOW_LOWER : Priority_next_below LOW LOWER
  | LOWER_LOWEST : Priority_next_below LOWER LOWEST.

(** [p] is above [q] in the chain. *)
Definition Priority_above : Priority → Priority → Prop := tc Priority_next_below.

(** ** A fragment of the [EVENTS] literal *)

(** The Python values given to the callbacks. *)
Inductive pyval : Type :=
  | PyInt (n : Z)
  | PyBool (b : bool)
  | PyObject (id : nat).

Module EventName.
(** Raw values of the enumerants used below.  They are fixed by the capnp
    schema, outside this module; nothing depends on the numbers. *)
Definition reverseGear : EventName := 10%N.
Definition controlsMismatch : EventName := 22%N.
Definition vehicleModelInvalid : EventName := 50%N.
Definition gasPressed : EventName := 60%N.
Definition stockFcw : EventName := 74%N.
Definition roadCameraError : EventName := 78%N.
End EventName.

Section Fragment.
Variable DT_CTRL : Qc.
Variable tr : nat → string.

(** The integer a Python value compares as, if it is a number
    ([bool] is a subclass of [int]). *)
Definition as_int (v : pyval) : option Z :=
  match v with
  | PyInt n => Some n
  | PyBool b => Some (Z.b2z b)
  | PyObject _ => None
  end.

(** [soft_disable_alert] *)
Definition soft_disable_alert (alert_text_2 : string) : AlertCallbackType pyval :=
  λ args,
    match args with
    | [_; _; _; soft_disable_time] =>
        match as_int soft_disable_time with
        | Some soft_disable_time =>
            if bool_decide (soft_disable_time < int (Q2Qc (1 # 2) / DT_CTRL))
            then Returns (ImmediateDisableAlert DT_CTRL tr alert_text_2)
            else Returns (SoftDisableAlert DT_CTRL tr alert_text_2)
        | None => Raises TypeError
        end
    | _ => Raises TypeError
    end.

(** The entries of [EVENTS] for six of the events. *)
Definition EVENTS_fragment : gmap N (gmap string (CatalogEntry pyval)) :=
  {[ EventName.stockFcw := ∅;
     EventName.gasPressed :=
       {[ ET.PRE_ENABLE :=
            Fixed (Alert_init DT_CTRL (tr 40) "" status_normal size_small LOWEST
                     "none" "none" (Q2Qc (1 # 10)) 0%Qc (Qc_of_Z 1)) ]};
     EventName.vehicleModelInvalid :=
       {[ ET.NO_ENTRY := Fixed (NoEntryAlert DT_CTRL tr (tr 41) "none");
          ET.SOFT_DISABLE := Dynamic (soft_disable_alert (tr 42)) ]};
     EventName.controlsMismatch :=
       {[ ET.IMMEDIATE_DISABLE := Fixed (ImmediateDisableAlert DT_CTRL tr (tr 149)) ]};
     EventName.roadCameraError :=
       {[ ET.PERMANENT :=
            Fixed (NormalPermanentAlert DT_CTRL (tr 150) "" (Qc_of_Z 1) LOWER
                     (Qc_of_Z 30)) ]};
     EventName.reverseGear :=
       {[ ET.PERMANENT :=
            Fixed (Alert_init DT_CTRL (tr 164) "" status_userPrompt size_full LOWEST
                     "none" "none" (Q2Qc (2 # 10)) 0%Qc (Q2Qc (1 # 2)));
          ET.NO_ENTRY := Fixed (NoEntryAlert DT_CTRL tr (tr 165) "none") ]} ]}.

(** The names of these enumerants, as [EVENT_NAME] has them. *)
Definition EVENT_NAME_fragment : gmap N string :=
  {[ EventName.stockFcw := "stockFcw";
     EventName.gasPressed := "gasPressed";
     EventName.vehicleModelInvalid := "vehicleModelInvalid";
     EventName.controlsMismatch := "controlsMismatch";
     EventName.roadCameraError := "roadCameraError";
     EventName.reverseGear := "reverseGear" ]}.
End Fragment.

(** [DT_CTRL] of [common.realtime]: a hundredth of a second. *)
Definition DT_CTRL_100Hz : Qc := Q2Qc (1 # 100).

(** [linecache.getline] on a language file that is absent gives the empty
    string for every line. *)
Definition tr_absent : nat → string := λ _, "".

Definition EVENTS_0 : gmap N (gmap string (CatalogEntry pyval)) :=
  EVENTS_fragment DT_CTRL_100Hz tr_absent.

Definition EVENT_NAME_0 : gmap N string := EVENT_NAME_fragment.

(** The state of a process that has built no alert yet. *)
Definition world_0 (self : Events) : World pyval :=
  {| EVENTS := EVENTS_0; allocated := []; self := self |}.

(** [n] cycles in which [reverseGear] alone is asserted. *)
Definition reverse_cycles (n : nat) : list (list (EventName * bool)) :=
  replicate n [(EventName.reverseGear, false)].

(** An identifier that is no enumerant of the schema, as a newer producer
    could send it. *)
Definition unknown_event : EventName := 65535%N.

(** ** Notions used to state the properties of [create_alerts] *)

Section Resolution.
Context {PyVal : Type}.
Variable DT_CTRL : Qc.
Variable EVENT_NAME : gmap N string.

(** The state a call leaves, whether it returned or raised. *)
Definition res_world {A} (r : Res PyVal A) : World PyVal :=
  match r with
  | Ok _ w => w
  | Raise _ w => w
  end.

(** The call returned, it did not raise. *)
Definition returned {A} (r : Res PyVal A) : Prop :=
  match r with
  | Ok _ _ => True
  | Raise _ _ => False
  end.

(** The entry of the catalog for an event and an event type, if any. *)
Definition slot (C : gmap N (gmap string (CatalogEntry PyVal)))
    (e : EventName) (et : string) : option (CatalogEntry PyVal) :=
  C !! e ≫= (.!! et).

(** The two fields written at resolution time, and their reset. *)
Definition stamp (event_name et : string) (a : Alert) : Alert :=
  set_event_type (Some et) (set_alert_type (event_name +:+ "/" +:+ et) a).

Definition unstamp (a : Alert) : Alert :=
  set_event_type None (set_alert_type "" a).

(** The catalog with these two fields reset in every stored alert. *)
Definition unstamped (C : gmap N (gmap string (CatalogEntry PyVal)))
  : gmap N (gmap string (CatalogEntry PyVal)) :=
  (λ d : gmap string (CatalogEntry PyVal), on_fixed unstamp <$> d) <$> C.

(** The pairs of an active event and a requested event type that have an
    entry in the catalog, in the order the loops visit them: events in
    assertion order, then event types in the order of the caller. *)
Definition pairs_with_entry (C : gmap N (gmap string (CatalogEntry PyVal)))
    (evs : list EventName) (event_types : list string)
  : list (EventName * string) :=
  e ← evs;
  et ← event_types;
  if decide (is_Some (slot C e et)) then [(e, et)] else [].

Definition candidates (w : World PyVal) (event_types : list string)
  : list (EventName * string) :=
  pairs_with_entry (EVENTS w) (events (self w)) event_types.

(** The alert an entry stands for: the stored alert, or the one the
    callback builds from the arguments. *)
Definition slot_alert (w : World PyVal) (args : list PyVal)
    (e : EventName) (et : string) : option Alert :=
  match slot (EVENTS w) e et with
  | Some (Fixed a) => Some a
  | Some (Dynamic callback) =>
      match callback args with
      | Returns a => Some a
      | Raises _ => None
      end
  | None => None
  end.

(** The creation-delay gate of a pair, on the streak counter of its
    event. *)
Definition gate_open (w : World PyVal) (args : list PyVal)
    (s : EventName * string) : Prop :=
  ∃ a prev,
    slot_alert w args s.1 s.2 = Some a
    ∧ events_prev (self w) !! s.1 = Some prev
    ∧ (creation_delay a ≤ DT_CTRL * Qc_of_nat (prev + 1))%Qc.

#[global] Instance gate_open_dec w args s : Decision (gate_open w args s).
Proof.
  unfold gate_open.
  destruct (slot_alert w args s.1 s.2) as [a|];
    [|right; intros (? & ? & ? & _); done].
  destruct (events_prev (self w) !! s.1) as [prev|];
    [|right; intros (? & ? & _ & ? & _); done].
  destruct (decide (creation_delay a ≤ DT_CTRL * Qc_of_nat (prev + 1))%Qc) as [H|H].
  - left. eauto.
  - right. intros (? & ? & [= <-] & [= <-] & ?). done.
Defined.

(** [r], in the state [w'] a call started in [w] has left, is the alert of
    the pair [s]: it is the alert of the entry with the event name and the
    event type written on it, and it is the object of the catalog when the
    entry is a stored alert, a new object when the entry is a callback. *)
Definition resolves (w w' : World PyVal) (args : list PyVal)
    (s : EventName * string) (r : AlertRef) : Prop :=
  ∃ a event_name,
    slot_alert w args s.1 s.2 = Some a
    ∧ EVENT_NAME !! s.1 = Some event_name
    ∧ deref w' r = Some (stamp event_name s.2 a)
    ∧ match slot (EVENTS w) s.1 s.2 with
      | Some (Fixed _) => r = InCatalog s.1 s.2
      | _ => ∃ i, r = Allocated i ∧ (length (allocated w) ≤ i)%nat
      end.

(** What a call may change: the instance is left as it is, the catalog
    keeps its keys, its callbacks and every field of its stored alerts but
    the two stamped ones, and objects are only added to the allocated
    ones. *)
Definition frame (w w' : World PyVal) : Prop :=
  self w' = self w
  ∧ unstamped (EVENTS w') = unstamped (EVENTS w)
  ∧ allocated w `prefix_of` allocated w'.

(** Two states that a call cannot tell apart but for the stamps. *)
Definition similar (w v : World PyVal) : Prop :=
  self w = self v ∧ unstamped (EVENTS w) = unstamped (EVENTS v).

(** The state after a callback has built [a]. *)
Definition alloc (a : Alert) (w : World PyVal) : World PyVal :=
  {| EVENTS := EVENTS w; allocated := allocated w ++ [a]; self := self w |}.

(** The state after the two assignments that stamp the object of [r]. *)
Definition stamp_world (r : AlertRef) (event_name et : string) (w : World PyVal)
  : World PyVal :=
  update_alert r (set_event_type (Some et))
    (update_alert r (set_alert_type (event_name +:+ "/" +:+ et)) w).

(** The end of the body of the inner loop, from the reading of the streak
    counter on, for the alert [a] behind [r]. *)
Definition gate_then (e : EventName) (et : string) (ret : list AlertRef)
    (r : AlertRef) (a : Alert) (w : World PyVal) : Res PyVal (list AlertRef) :=
  match events_prev (self w) !! e with
  | None => Raise KeyError w
  | Some prev =>
      if bool_decide (creation_delay a ≤ DT_CTRL * Qc_of_nat (prev + 1))%Qc then
        match EVENT_NAME !! e with
        | None => Raise KeyError w
        | Some event_name => Ok (ret ++ [r]) (stamp_world r event_name et w)
        end
      else Ok ret w
  end.

(** What a call needs in order to return: every active identifier is a key
    of the catalog, has a streak counter and a name, and the callbacks of
    its entries under the requested event types return on the arguments. *)
Definition resolvable (w : World PyVal) (event_types : list string)
    (args : list PyVal) : Prop :=
  ∀ e, e ∈ events (self w) →
    is_Some (EVENTS w !! e)
    ∧ is_Some (events_prev (self w) !! e)
    ∧ is_Some (EVENT_NAME !! e)
    ∧ ∀ et callback,
        et ∈ event_types → slot (EVENTS w) e et = Some (Dynamic callback) →
        ∃ a, callback args = Returns a.
End Resolution.

(** ** Further parts of the module *)

(** [EVENT_NAME = {v: k for k, v in EventName.schema.enumerants.items()}],
    on the items of the enumerant table in their order: a later item
    replaces an earlier one that has the same value. *)
Definition EVENT_NAME_of (enumerants : list (string * N)) : gmap N string :=
  foldl (λ m kv, <[kv.2 := kv.1]> m) ∅ enumerants.


Section MoreAlerts.
Variable DT_CTRL : Qc.
Variable tr : nat → string.


(** [EngagementAlert] *)
Definition EngagementAlert (audible_alert : AudibleAlert) : Alert :=
  Alert_init DT_CTRL "" "" status_normal size_none MID "none" audible_alert
    (Q2Qc (2 # 10)) 0%Qc 0%Qc.

(** [StartupAlert]; the defaults [tr(5)] and [AlertStatus.normal] of the
    last two arguments are passed explicitly. *)
Definition StartupAlert (alert_text_1 alert_text_2 : string)
    (alert_status : AlertStatus) : Alert :=
  Alert_init DT_CTRL alert_text_1 alert_text_2 alert_status size_mid LOWER
    "none" "none" (Qc_of_Z 10) 0%Qc 0%Qc.

End MoreAlerts.

(** ** Further notions used in the properties *)


(** The number of [clear()] calls in a sequence of method calls. *)
Fixpoint count_clears (cs : list method_call) : nat :=
  match cs with
  | [] => 0
  | call_clear :: cs' => S (count_clears cs')
  | _ :: cs' => count_clears cs'
  end.

(** The state in which the instance has the active list [l]. *)
Definition with_events {PyVal : Type} (l : list EventName) (w : World PyVal)
  : World PyVal :=
  {| EVENTS := EVENTS w;
     allocated := allocated w;
     self := {| events := l;
                static_events := static_events (self w);
                events_prev := events_prev (self w) |} |}.


(** A result with its value changed by [g] and its state by [f]. *)
Definition res_map {PyVal A : Type} (g : A → A) (f : World PyVal → World PyVal)
    (r : Res PyVal A) : Res PyVal A :=
  match r with
  | Ok a w => Ok (g a) (f w)
  | Raise x w => Raise x (f w)
  end.

(** * Properties *)

(** ** Priorities and the comparison of alerts *)

Lemma Priority_above_value (p q : Priority) :
  Priority_above p q ↔ Priority_value p > Priority_value q.
Proof.
  split.
  - induction 1 as [p q H|p q r H _ IH].
    + destruct H; simpl; lia.
    + destruct H; simpl in *; lia.
  - assert (Hstep : ∀ p q, Priority_value p = Priority_value q + 1 →
                           Priority_next_below p q).
    { intros [] []; simpl; intros; try lia; constructor. }
    assert (chain : ∀ n p q, Priority_value p = Priority_value q + 1 + Z.of_nat n →
                             Priority_above p q).
    { induction n as [|n IH]; intros p' q' Hv.
      - apply tc_once, Hstep. lia.
      - assert (∃ r, Priority_value r = Priority_value q' + 1) as [r Hr].
        { destruct q'; simpl in *;
            [exists LOWER|exists LOW|exists MID|exists HIGH|exists HIGHEST|];
            simpl; try lia.
          destruct p'; simpl in Hv; lia. }
        eapply tc_r; [apply IH|apply Hstep; eassumption]. lia. }
    intros Hgt.
    apply (chain (Z.to_nat (Priority_value p - Priority_value q - 1))). lia.
Qed.

(** C10. [a > b] on alerts holds exactly when the priority of [a] is above
    the priority of [b] in HIGHEST > HIGH > MID > LOW > LOWER > LOWEST; the
    answer depends on the two priorities only, and two alerts of the same
    priority are not ordered, in either direction. *)
Theorem Alert_gt_is_priority_order (a b : Alert) :
  (Alert_gt a b = true ↔ Priority_above (priority a) (priority b))
  ∧ (∀ a' b' : Alert,
       priority a' = priority a → priority b' = priority b →
       Alert_gt a' b' = Alert_gt a b)
  ∧ (priority a = priority b → Alert_gt a b = false ∧ Alert_gt b a = false).
Proof.
  unfold Alert_gt. split; [|split].
  - rewrite bool_decide_eq_true. symmetry. apply Priority_above_value.
  - intros a' b' -> ->. reflexivity.
  - intros ->. split; apply bool_decide_eq_false; lia.
Qed.

(** ** Cycle counts stored by [Alert.__init__] *)



(** The sign of a rounded quotient of floats that are not negative. *)
Lemma binary_round_aux_nonneg (m e : Z) (l : SpecFloat.location) :
  float_nonneg (SpecFloat.binary_round_aux 53 1024 false m e l).
Proof.
  unfold SpecFloat.binary_round_aux.
  destruct (SpecFloat.shr_fexp 53 1024 m e l) as [mrs e'].
  destruct (SpecFloat.shr_fexp _ _ _ e' _) as [mrs' e''].
  destruct (SpecFloat.shr_m mrs'); [done| |done].
  by destruct (_ <=? _)%Z.
Qed.

Lemma float_div_nonneg (x y : float) :
  float_nonneg x → float_nonneg y → float_nonneg (float_div x y).
Proof.
  unfold float_div.
  destruct x as [sx|sx| |sx mx ex], y as [sy|sy| |sy my ey];
    simpl; intros Hx Hy; subst; try done.
  destruct (SpecFloat.SFdiv_core_binary _ _ _ _ _ _) as [[mz ez] lz].
  apply binary_round_aux_nonneg.
Qed.

Lemma float_of_Qc_nonneg (x : Qc) : (0 ≤ x)%Qc → float_nonneg (float_of_Qc x).
Proof.
  destruct x as [[n d] Hc]. unfold Qcle, Qle, float_of_Qc.
  cbn [Qnum Qden this Q2Qc Qred]. intros Hn.
  destruct n; [done| |simpl in Hn; lia].
  by apply float_div_nonneg.
Qed.

Lemma floor_Q2Qc (q : Q) : floor (Q2Qc q) = Qfloor q.
Proof. unfold floor. cbn [this Q2Qc]. apply Qfloor_comp, Qred_correct. Qed.

Lemma floor_Qc_of_Z (z : Z) : floor (Qc_of_Z z) = z.
Proof. unfold floor, Qc_of_Z. cbn [this]. apply Qfloor_Z. Qed.

Lemma Qc_of_Z_nonneg (z : Z) : 0 ≤ z → (0 ≤ Qc_of_Z z)%Qc.
Proof. intros Hz. unfold Qcle, Qc_of_Z, Qle. simpl. lia. Qed.

(** [int] of a finite float that is not negative is the floor of its
    value. *)
Lemma float_int_floor (q : float) (v : Qc) :
  float_nonneg q → float_value q = Some v →
  (0 ≤ v)%Qc ∧ float_int q = Some (floor v).
Proof.
  destruct q as [s|s| |s m e]; cbn [float_nonneg float_value float_int];
    intros Hs Hv; try done.
  - injection Hv as <-. done.
  - subst s. injection Hv as <-. cbn [SpecFloat.cond_Zopp].
    destruct e as [|e|e].
    + split; [apply Qc_of_Z_nonneg; lia|].
      by rewrite floor_Qc_of_Z, Z.shiftl_mul_pow2.
    + split; [apply Qc_of_Z_nonneg; lia|].
      by rewrite floor_Qc_of_Z, Z.shiftl_mul_pow2.
    + split.
      * unfold Qcle. cbn [this Q2Qc]. rewrite !Qred_correct.
        unfold Qle. simpl. lia.
      * rewrite floor_Q2Qc. f_equal.
        change (Z.pos m ≫ Z.pos e = Z.pos m `div` Z.pos (2 ^ e)).
        rewrite Z.shiftr_div_pow2 by lia. by rewrite Pos2Z.inj_pow.
Qed.

(** The cycles of a duration that is not negative, at a positive period:
    when the quotient [q] is computed and is finite, of value [v], they are
    [floor v], and [v] is not negative. *)
Lemma cycles_floor (DT_CTRL t : Qc) (q : float) (v : Qc) :
  (0 < DT_CTRL)%Qc → (0 ≤ t)%Qc →
  float_truediv (float_of_Qc t) (float_of_Qc DT_CTRL) = Some q →
  float_value q = Some v →
  (0 ≤ v)%Qc ∧ cycles DT_CTRL t = Some (floor v).
Proof.
  intros Hdt Ht Hq Hv. unfold cycles. rewrite Hq. cbn [mbind option_bind].
  apply float_int_floor; [|done].
  assert (Hy : float_nonneg (float_of_Qc DT_CTRL))
    by (by apply float_of_Qc_nonneg, Qclt_le_weak).
  pose proof (float_of_Qc_nonneg t Ht) as Hx.
  unfold float_truediv in Hq.
  destruct (float_of_Qc DT_CTRL) as [sy|sy| |sy my ey] eqn:Ey; [done|..];
    injection Hq as <-; by apply float_div_nonneg.
Qed.

(** C7, as the code has it.  With a positive control period and a duration
    [t] that is not negative, [t / DT_CTRL] is the binary64 quotient [q] of
    the two floats; when it is computed and finite, of value [v], the stored
    duration is [floor v] cycles and [v] is not negative.  The creation
    delay is stored as it is given, in seconds, and is not converted to
    cycles. *)
Theorem Alert_init_stored_times
    (DT_CTRL : Qc) (t1 t2 : string) (st : AlertStatus) (sz : AlertSize)
    (p : Priority) (va aa : string) (t rate d : Qc) (q : float) (v : Qc) :
  (0 < DT_CTRL)%Qc → (0 ≤ t)%Qc →
  float_truediv (float_of_Qc t) (float_of_Qc DT_CTRL) = Some q →
  float_value q = Some v →
  (0 ≤ v)%Qc
  ∧ duration (Alert_init DT_CTRL t1 t2 st sz p va aa t rate d) = floor v
  ∧ creation_delay (Alert_init DT_CTRL t1 t2 st sz p va aa t rate d) = d.
Proof.
  intros Hdt Ht Hq Hv.
  destruct (cycles_floor DT_CTRL t q v Hdt Ht Hq Hv) as [Hv0 Hc].
  split; [done|]. split; [|reflexivity].
  unfold Alert_init. cbn [duration]. by rewrite Hc.
Qed.

(** A duration of 0.29 s at a period of 0.01 s: the quotient of the two
    floats is 8162774324609023 / 2 ^ 48, just below 29, and 28 cycles are
    stored. *)
Lemma Alert_init_stored_times_witness :
  (0 ≤ Q2Qc (8162774324609023 # 2 ^ 48))%Qc
  ∧ duration (Alert_init DT_CTRL_100Hz "" "" status_normal size_small LOWEST
                "none" "none" (Q2Qc (29 # 100)) 0%Qc (Qc_of_Z 1))
    = floor (Q2Qc (8162774324609023 # 2 ^ 48))
  ∧ creation_delay (Alert_init DT_CTRL_100Hz "" "" status_normal size_small LOWEST
                      "none" "none" (Q2Qc (29 # 100)) 0%Qc (Qc_of_Z 1))
    = Qc_of_Z 1.
Proof.
  apply (Alert_init_stored_times DT_CTRL_100Hz "" "" status_normal size_small
           LOWEST "none" "none" (Q2Qc (29 # 100)) 0%Qc (Qc_of_Z 1)
           (SpecFloat.S754_finite false 8162774324609023 (-48))).
  - vm_compute. reflexivity.
  - vm_compute. discriminate.
  - vm_compute. reflexivity.
  - reflexivity.
Defined.

(** C7, as stated, fails: the alert of [gasPressed] is built with a
    creation delay of one second and a period of 0.01 s; the stored creation
    delay is 1, not the 100 cycles of [floor (d / DT_CTRL)], which is 100
    for the exact quotient and for the quotient of the floats alike. *)
Lemma Alert_init_creation_delay_not_in_cycles :
  let a := Alert_init DT_CTRL_100Hz "" "" status_normal size_small LOWEST
             "none" "none" (Q2Qc (1 # 10)) 0%Qc (Qc_of_Z 1) in
  floor (Qc_of_Z 1 / DT_CTRL_100Hz) = 100
  ∧ cycles DT_CTRL_100Hz (Qc_of_Z 1) = Some 100
  ∧ creation_delay a = Qc_of_Z 1
  ∧ creation_delay a ≠ Qc_of_Z (floor (Qc_of_Z 1 / DT_CTRL_100Hz)).
Proof.
  split; [|split; [|split]]; [reflexivity|vm_compute; reflexivity|reflexivity|].
  cbn [creation_delay Alert_init]. intros H. apply Z2Qc_inj in H.
  vm_compute in H. discriminate.
Qed.

(** The stored duration and the whole periods of the exact quotient: 0.29 s
    at 0.01 s is stored as 28 cycles, where the exact quotient is 29; the
    durations of the catalog are stored as the exact quotient has them. *)
Example Alert_init_duration_028 :
  cycles DT_CTRL_100Hz (Q2Qc (29 # 100)) = Some 28
  ∧ floor (Q2Qc (29 # 100) / DT_CTRL_100Hz) = 29
  ∧ (λ t, cycles DT_CTRL_100Hz t)
      <$> [Q2Qc (1 # 10); Q2Qc (2 # 10); Qc_of_Z 1; Qc_of_Z 2; Qc_of_Z 3;
           Qc_of_Z 4; Qc_of_Z 10]
    = Some <$> [10; 20; 100; 200; 300; 400; 1000]
  ∧ (λ t, int (t / DT_CTRL_100Hz))
      <$> [Q2Qc (1 # 10); Q2Qc (2 # 10); Qc_of_Z 1; Qc_of_Z 2; Qc_of_Z 3;
           Qc_of_Z 4; Qc_of_Z 10]
    = [10; 20; 100; 200; 300; 400; 1000].
Proof. repeat split; vm_compute; reflexivity. Qed.

(** The threshold [int(0.5 / DT_CTRL)] of the soft-disable callbacks at
    0.01 s: 50 for the quotient of the floats and for the exact quotient
    alike. *)
Example soft_disable_threshold_100Hz :
  cycles DT_CTRL_100Hz (Q2Qc (1 # 2)) = Some 50
  ∧ int (Q2Qc (1 # 2) / DT_CTRL_100Hz) = 50.
Proof. split; vm_compute; reflexivity. Qed.

(** ** The state of an [Events] instance *)

Section EventsState.
Context {PyVal : Type}.
Implicit Types (self : Events) (e : EventName) (msg : list CarEvent).
Implicit Types (EVENTS : gmap N (gmap string (CatalogEntry PyVal))).

Lemma add_from_msg_fields msg self :
  events (add_from_msg msg self) = events self ++ (name <$> msg)
  ∧ static_events (add_from_msg msg self) = static_events self
  ∧ events_prev (add_from_msg msg self) = events_prev self.
Proof.
  unfold add_from_msg. revert self.
  induction msg as [|m msg IH]; intros self; simpl.
  - by rewrite app_nil_r.
  - destruct (IH {| events := events self ++ [name m];
                    static_events := static_events self;
                    events_prev := events_prev self |}) as (-> & -> & ->).
    simpl. by rewrite <- app_assoc.
Qed.

Lemma set_flags_name (X : gset string) (event : CarEvent) :
  name (set_fold CarEvent_set_flag event X) = name event.
Proof.
  unfold set_fold. simpl. induction (elements X) as [|x l IH]; simpl; done.
Qed.

Lemma to_msg_names EVENTS self : name <$> to_msg EVENTS self = events self.
Proof.
  unfold to_msg.
  assert (gen : ∀ l ret,
    name <$> foldl
      (λ ret event_name,
         ret ++ [set_fold CarEvent_set_flag
                   {| name := event_name; flags := flags CarEvent_new_message |}
                   (dom (default ∅ (EVENTS !! event_name)) : gset string)])
      ret l
    = (name <$> ret) ++ l).
  { induction l as [|x l IH]; intros ret; simpl.
    - by rewrite app_nil_r.
    - rewrite IH, fmap_app. simpl. rewrite set_flags_name. simpl.
      by rewrite <- app_assoc. }
  apply (gen (events self) []).
Qed.

Lemma lookup_events_prev_clear self e :
  events_prev (clear self) !! e
  = (λ v, if bool_decide (e ∈ events self) then (v + 1)%nat else 0%nat)
      <$> events_prev self !! e.
Proof.
  unfold clear. simpl. rewrite map_lookup_imap.
  by destruct (events_prev self !! e).
Qed.

Lemma dom_events_prev_run_call (c : method_call) self :
  dom (events_prev (run_call c self)) = dom (events_prev self).
Proof.
  destruct c as [ev st| |msg].
  - reflexivity.
  - change (run_call call_clear self) with (clear self).
    apply set_eq. intros k. rewrite !elem_of_dom, lookup_events_prev_clear.
    by rewrite fmap_is_Some.
  - simpl. by destruct (add_from_msg_fields msg self) as (_ & _ & ->).
Qed.

(** The streak counters are kept for the keys of the catalog, and for no
    other identifier. *)
Lemma reachable_dom_events_prev EVENTS self :
  reachable EVENTS self → dom (events_prev self) = dom EVENTS.
Proof.
  induction 1 as [|c self _ IH].
  - unfold Events_init. simpl. apply dom_fmap_L.
  - by rewrite dom_events_prev_run_call.
Qed.

(** C2. [clear()] on an instance of the process: every identifier of the
    catalog has a streak counter, which becomes the old value plus one when
    the identifier is in the active list and zero when it is not; no
    counter appears for another identifier; the active list becomes the
    static list, which is left as it was, so that the active list is empty
    when the static list is. *)
Theorem clear_updates_streaks_and_resets_active EVENTS self :
  reachable EVENTS self →
  (∀ e, e ∈ dom EVENTS →
     ∃ v, events_prev self !! e = Some v
          ∧ events_prev (clear self) !! e
            = Some (if bool_decide (e ∈ events self) then (v + 1)%nat else 0%nat))
  ∧ (∀ e, e ∉ dom EVENTS → events_prev (clear self) !! e = None)
  ∧ events (clear self) = static_events self
  ∧ static_events (clear self) = static_events self
  ∧ (static_events self = [] → events (clear self) = []).
Proof.
  intros Hr. pose proof (reachable_dom_events_prev _ _ Hr) as Hdom.
  split; [|split; [|split; [|split]]]; try reflexivity.
  - intros e He. rewrite <- Hdom in He. apply elem_of_dom in He as [v Hv].
    exists v. split; [done|]. by rewrite lookup_events_prev_clear, Hv.
  - intros e He. rewrite <- Hdom in He. apply not_elem_of_dom in He.
    by rewrite lookup_events_prev_clear, He.
  - intros Hs. simpl. exact Hs.
Qed.

(** C5, as the code has it.  The identifiers of the messages built by
    [to_msg] are the active list, in order; ingesting them with
    [add_from_msg] appends them to the active list of the receiver.  A new
    [Events()] of the same catalog, whose active list is empty, ends with
    the same sequence of identifiers as the sender; any receiver ends with
    its own active list followed by the sender's. *)
Theorem to_msg_add_from_msg_round_trip EVENTS self :
  name <$> to_msg EVENTS self = events self
  ∧ events (add_from_msg (to_msg EVENTS self) (Events_init EVENTS)) = events self
  ∧ (∀ other : Events,
       events (add_from_msg (to_msg EVENTS self) other)
       = events other ++ events self).
Proof.
  split; [apply to_msg_names|]. split.
  - destruct (add_from_msg_fields (to_msg EVENTS self) (Events_init EVENTS))
      as (-> & _). by rewrite to_msg_names.
  - intros other.
    destruct (add_from_msg_fields (to_msg EVENTS self) other) as (-> & _).
    by rewrite to_msg_names.
Qed.

(** C6, as the code has it.  [add_from_msg] appends the decoded
    identifiers, in order, after what the active list holds; the static
    list and the streak counters are not touched. *)
Theorem add_from_msg_appends msg self :
  events (add_from_msg msg self) = events self ++ (name <$> msg)
  ∧ static_events (add_from_msg msg self) = static_events self
  ∧ events_prev (add_from_msg msg self) = events_prev self.
Proof. apply add_from_msg_fields. Qed.

(** A static identifier stays in both lists under every method call. *)
Lemma static_member_run_call (c : method_call) self e :
  e ∈ static_events self ∧ e ∈ events self →
  e ∈ static_events (run_call c self) ∧ e ∈ events (run_call c self).
Proof.
  intros [Hs Ha]. destruct c as [ev st| |msg]; simpl.
  - split; [destruct st|]; set_solver.
  - done.
  - destruct (add_from_msg_fields msg self) as (-> & -> & _). set_solver.
Qed.

Lemma static_member_run_calls (cs : list method_call) self e :
  e ∈ static_events self ∧ e ∈ events self →
  e ∈ static_events (run_calls cs self) ∧ e ∈ events (run_calls cs self).
Proof.
  unfold run_calls. revert self.
  induction cs as [|c cs IH]; intros self H; simpl; [done|].
  by apply IH, static_member_run_call.
Qed.

(** C8. After [add(e, static=True)] the identifier [e] is in the active
    list after any number of [clear()] calls with no further [add], hence
    in each of the next five cycles, and more generally after any later
    sequence of method calls. *)
Theorem static_event_stays_active self e :
  (∀ n : nat, e ∈ events (Nat.iter n clear (add e true self)))
  ∧ (∀ cs : list method_call, e ∈ events (run_calls cs (add e true self))).
Proof.
  assert (Hall : ∀ cs : list method_call,
             e ∈ events (run_calls cs (add e true self))).
  { intros cs. apply static_member_run_calls. simpl. set_solver. }
  split; [|exact Hall].
  intros n.
  assert (Hn : ∀ s, Nat.iter n clear s = run_calls (replicate n call_clear) s).
  { induction n as [|n IH]; intros s; [done|].
    rewrite Nat.iter_succ_r. rewrite IH. reflexivity. }
  rewrite Hn. apply Hall.
Qed.
End EventsState.

(** C6, as stated, fails: with [gasPressed] active, ingesting a message that
    carries [reverseGear] leaves both identifiers in the active list, not the
    decoded one alone. *)
Lemma add_from_msg_keeps_active_list :
  let self := add EventName.gasPressed false (Events_init EVENTS_0) in
  let msg := [ {| name := EventName.reverseGear; flags := ∅ |} ] in
  events (add_from_msg msg self) = [EventName.gasPressed; EventName.reverseGear]
  ∧ events (add_from_msg msg self) ≠ (name <$> msg).
Proof. split; [reflexivity|discriminate]. Qed.

(** C5, as stated, fails: the receiver keeps what its active list holds.
    With [gasPressed] active, feeding the messages of [to_msg] back into the
    same instance leaves the identifier twice in the active list; fed into
    an instance on which [reverseGear] is active, they leave an active list
    that holds [reverseGear], which the sender's does not. *)
Lemma to_msg_add_from_msg_keeps_receiver_list :
  let self := add EventName.gasPressed false (Events_init EVENTS_0) in
  let other := add EventName.reverseGear false (Events_init EVENTS_0) in
  events self = [EventName.gasPressed]
  ∧ events (add_from_msg (to_msg EVENTS_0 self) self)
    = [EventName.gasPressed; EventName.gasPressed]
  ∧ events (add_from_msg (to_msg EVENTS_0 self) self) ≠ events self
  ∧ events (add_from_msg (to_msg EVENTS_0 self) other)
    = [EventName.reverseGear; EventName.gasPressed]
  ∧ EventName.reverseGear ∈ events (add_from_msg (to_msg EVENTS_0 self) other)
  ∧ EventName.reverseGear ∉ events self.
Proof.
  split; [reflexivity|]. split; [vm_compute; reflexivity|].
  split; [vm_compute; discriminate|]. split; [vm_compute; reflexivity|].
  split; [apply (bool_decide_eq_true_1 _)|apply (bool_decide_eq_false_1 _)];
    vm_compute; reflexivity.
Qed.

Lemma clear_updates_streaks_and_resets_active_witness :
  let self := add EventName.gasPressed false (clear (Events_init EVENTS_0)) in
  (∀ e, e ∈ dom EVENTS_0 →
     ∃ v, events_prev self !! e = Some v
          ∧ events_prev (clear self) !! e
            = Some (if bool_decide (e ∈ events self) then (v + 1)%nat else 0%nat))
  ∧ (∀ e, e ∉ dom EVENTS_0 → events_prev (clear self) !! e = None)
  ∧ events (clear self) = static_events self
  ∧ static_events (clear self) = static_events self
  ∧ (static_events self = [] → events (clear self) = []).
Proof.
  apply clear_updates_streaks_and_resets_active.
  apply (reachable_call _ (call_add EventName.gasPressed false)).
  apply (reachable_call _ call_clear).
  apply reachable_init.
Defined.

(** ** [create_alerts] *)

Section CreateAlertsProps.
Context {PyVal : Type}.
Variable DT_CTRL : Qc.
Variable EVENT_NAME : gmap N string.
Implicit Types (w v : World PyVal) (a : Alert) (r : AlertRef).
Implicit Types (e : EventName) (et : string) (ret : list AlertRef).
Implicit Types (C : gmap N (gmap string (CatalogEntry PyVal))).
Implicit Types (args : list PyVal).

Lemma Ok_inj {A} (x y : A) w v : @Ok PyVal A x w = Ok y v → x = y ∧ w = v.
Proof. by intros [= -> ->]. Qed.

(** *** Stamps *)

Lemma unstamp_set_alert_type s a : unstamp (set_alert_type s a) = unstamp a.
Proof. reflexivity. Qed.

Lemma unstamp_set_event_type o a : unstamp (set_event_type o a) = unstamp a.
Proof. reflexivity. Qed.

Lemma unstamp_stamp n et a : unstamp (stamp n et a) = unstamp a.
Proof. reflexivity. Qed.

Lemma stamp_unstamp n et a : stamp n et (unstamp a) = stamp n et a.
Proof. reflexivity. Qed.

Lemma stamp_eq n et a a' : unstamp a = unstamp a' → stamp n et a = stamp n et a'.
Proof.
  intros H. rewrite <- (stamp_unstamp n et a), <- (stamp_unstamp n et a').
  by rewrite H.
Qed.

Lemma stamp_stamp n et a : stamp n et (stamp n et a) = stamp n et a.
Proof. reflexivity. Qed.

Lemma creation_delay_unstamp a a' :
  unstamp a = unstamp a' → creation_delay a = creation_delay a'.
Proof.
  intros H. change (creation_delay (unstamp a) = creation_delay (unstamp a')).
  by rewrite H.
Qed.

Lemma on_fixed_unstamp_Fixed (x : CatalogEntry PyVal) a0 :
  on_fixed unstamp x = on_fixed unstamp (Fixed a0) →
  ∃ a, x = Fixed a ∧ unstamp a = unstamp a0.
Proof.
  destruct x as [a|c]; intros H; [|discriminate H].
  exists a. split; [done|].
  apply (f_equal (λ x, match x with Fixed b => Some b | Dynamic _ => None end)) in H.
  exact (inj Some _ _ H).
Qed.

Lemma on_fixed_unstamp_Dynamic (x : CatalogEntry PyVal) c :
  on_fixed unstamp x = on_fixed unstamp (Dynamic c) → x = Dynamic c.
Proof.
  destruct x as [a|c']; intros H; [discriminate H|].
  simpl in H. by injection H as ->.
Qed.

(** *** The catalog up to stamps *)

Lemma lookup_unstamped C e :
  unstamped C !! e
  = (λ d : gmap string (CatalogEntry PyVal), on_fixed unstamp <$> d) <$> C !! e.
Proof. unfold unstamped. apply lookup_fmap. Qed.

Lemma slot_unstamped C e et :
  slot (unstamped C) e et = on_fixed unstamp <$> slot C e et.
Proof.
  unfold slot. rewrite lookup_unstamped.
  destruct (C !! e) as [d|]; simpl; [|done]. apply lookup_fmap.
Qed.

Lemma unstamped_slot C C' e et :
  unstamped C = unstamped C' →
  on_fixed unstamp <$> slot C e et = on_fixed unstamp <$> slot C' e et.
Proof. intros H. by rewrite <- !slot_unstamped, H. Qed.

Lemma unstamped_lookup_None C C' e :
  unstamped C = unstamped C' → C !! e = None → C' !! e = None.
Proof.
  intros H Hn. pose proof (lookup_unstamped C' e) as H'.
  rewrite <- H, lookup_unstamped, Hn in H'. simpl in H'.
  by destruct (C' !! e).
Qed.

Lemma unstamped_lookup_Some C C' e (d : gmap string (CatalogEntry PyVal)) :
  unstamped C = unstamped C' → C !! e = Some d →
  ∃ d', C' !! e = Some d' ∧ ∀ et, is_Some (d !! et) ↔ is_Some (d' !! et).
Proof.
  intros H Hd. pose proof (lookup_unstamped C' e) as H'.
  rewrite <- H, lookup_unstamped, Hd in H'. simpl in H'.
  destruct (C' !! e) as [d'|]; [|done]. exists d'. split; [done|].
  intros et. injection H' as H'.
  assert (Het : (on_fixed unstamp <$> d) !! et = (on_fixed unstamp <$> d') !! et)
    by (by rewrite H').
  rewrite !lookup_fmap in Het.
  destruct (d !! et), (d' !! et); simpl in Het; try done; split; eauto.
Qed.

Lemma unstamped_update_alert r (f : Alert → Alert) w :
  (∀ a, unstamp (f a) = unstamp a) →
  unstamped (EVENTS (update_alert r f w)) = unstamped (EVENTS w).
Proof.
  intros Hf. destruct r as [e et|i]; simpl; [|done].
  apply map_eq. intros e'. rewrite !lookup_unstamped.
  destruct (decide (e = e')) as [<-|Hne]; [|by rewrite lookup_alter_ne].
  rewrite lookup_alter_eq. destruct (EVENTS w !! e) as [d|]; simpl; [|done].
  f_equal. apply map_eq. intros et'. rewrite !lookup_fmap.
  destruct (decide (et = et')) as [<-|Hne]; [|by rewrite lookup_alter_ne].
  rewrite lookup_alter_eq. destruct (d !! et) as [[a|c]|]; simpl; [|done..].
  by rewrite Hf.
Qed.

Lemma unstamped_stamp_world r n et w :
  unstamped (EVENTS (stamp_world r n et w)) = unstamped (EVENTS w).
Proof.
  unfold stamp_world. rewrite !unstamped_update_alert; done.
Qed.

Lemma self_stamp_world r n et w : self (stamp_world r n et w) = self w.
Proof. by destruct r. Qed.

(** *** Reading through a reference *)

Lemma deref_update_alert r r' (f : Alert → Alert) w :
  deref (update_alert r f w) r'
  = if decide (r = r') then f <$> deref w r' else deref w r'.
Proof.
  destruct r as [e et|i], r' as [e' et'|i']; simpl.
  - destruct (decide (e = e')) as [<-|Hne].
    + rewrite lookup_alter_eq. destruct (EVENTS w !! e) as [d|]; simpl.
      * destruct (decide (et = et')) as [<-|Hne].
        -- rewrite lookup_alter_eq, decide_True by done.
           by destruct (d !! et) as [[a|c]|].
        -- rewrite lookup_alter_ne, decide_False by congruence. done.
      * by destruct (decide _).
    + rewrite lookup_alter_ne, decide_False by congruence. done.
  - done.
  - done.
  - destruct (decide (i = i')) as [<-|Hne].
    + by rewrite list_lookup_alter_eq, decide_True.
    + rewrite list_lookup_alter_ne, decide_False by congruence. done.
Qed.

Lemma deref_stamp_world r r' n et w :
  deref (stamp_world r n et w) r'
  = if decide (r = r') then stamp n et <$> deref w r' else deref w r'.
Proof.
  unfold stamp_world. rewrite !deref_update_alert.
  destruct (decide (r = r')); [|done]. by destruct (deref w r').
Qed.

Lemma stamp_world_alloc n et a w :
  stamp_world (Allocated (length (allocated w))) n et (alloc a w)
  = alloc (stamp n et a) w.
Proof.
  unfold stamp_world, alloc. simpl. f_equal.
  rewrite (alter_app_r_alt _ (allocated w) [a]) by lia.
  rewrite alter_app_r_alt by lia. by rewrite Nat.sub_diag.
Qed.

Lemma deref_alloc a w r x : deref w r = Some x → deref (alloc a w) r = Some x.
Proof.
  destruct r as [e et|i]; simpl; [done|]. intros H. by apply lookup_app_l_Some.
Qed.

Lemma deref_alloc_new a w : deref (alloc a w) (Allocated (length (allocated w))) = Some a.
Proof. simpl. by rewrite lookup_app_r, Nat.sub_diag. Qed.

(** *** The body of the inner loop, case by case *)

Lemma create_alert_unfold args (types : gset string) e et ret w :
  create_alert DT_CTRL EVENT_NAME args types e et ret w =
  if bool_decide (et ∈ types) then
    match slot (EVENTS w) e et with
    | None => Raise KeyError w
    | Some (Fixed a) => gate_then DT_CTRL EVENT_NAME e et ret (InCatalog e et) a w
    | Some (Dynamic callback) =>
        match callback args with
        | Returns a =>
            gate_then DT_CTRL EVENT_NAME e et ret
              (Allocated (length (allocated w))) a (alloc a w)
        | Raises x => Raise x w
        end
    end
  else Ok ret w.
Proof.
  unfold create_alert, slot. destruct (bool_decide (et ∈ types)); [|done].
  unfold mbind, M_MBind, M_bind, get_world, subscript, mret, M_MRet, M_ret, raise.
  destruct (EVENTS w !! e) as [d|]; simpl; [|done].
  destruct (d !! et) as [[a|callback]|]; simpl; [| |done].
  - unfold gate_then. destruct (events_prev (self w) !! e) as [prev|]; [|done].
    simpl. destruct (bool_decide _); [|done].
    destruct (EVENT_NAME !! e); done.
  - unfold call, raise. destruct (callback args) as [a|x]; [|done].
    unfold gate_then, alloc. simpl.
    destruct (events_prev (self w) !! e) as [prev|]; [|done].
    simpl. destruct (bool_decide _); [|done].
    destruct (EVENT_NAME !! e); done.
Qed.

(** *** What a call may change *)

#[local] Instance frame_preorder : PreOrder (@frame PyVal).
Proof.
  split.
  - intros w. split; [|split]; done.
  - intros w1 w2 w3 (Hs1 & Hu1 & Hp1) (Hs2 & Hu2 & Hp2). split; [|split].
    + by rewrite Hs2.
    + by rewrite Hu2.
    + by etrans.
Qed.

Lemma frame_alloc a w : frame w (alloc a w).
Proof. split; [|split]; [done..|]. simpl. by apply prefix_app_r. Qed.

Lemma frame_stamp_catalog e et n et' w :
  frame w (stamp_world (InCatalog e et) n et' w).
Proof.
  split; [|split]; [done| |done].
  apply (unstamped_stamp_world (InCatalog e et)).
Qed.

Lemma gate_then_frame_catalog e et ret e' et' a w :
  frame w (res_world (gate_then DT_CTRL EVENT_NAME e et ret (InCatalog e' et') a w)).
Proof.
  unfold gate_then. destruct (events_prev (self w) !! e); [|reflexivity].
  destruct (bool_decide _); [|reflexivity].
  destruct (EVENT_NAME !! e); [|reflexivity].
  apply frame_stamp_catalog.
Qed.

Lemma gate_then_frame_alloc e et ret a w :
  frame w (res_world (gate_then DT_CTRL EVENT_NAME e et ret
                        (Allocated (length (allocated w))) a (alloc a w))).
Proof.
  unfold gate_then.
  change (events_prev (self (alloc a w))) with (events_prev (self w)).
  destruct (events_prev (self w) !! e); [|apply frame_alloc].
  destruct (bool_decide _); [|apply frame_alloc].
  destruct (EVENT_NAME !! e); [|apply frame_alloc].
  rewrite stamp_world_alloc. apply frame_alloc.
Qed.

Lemma create_alert_frame args (types : gset string) e et ret w :
  frame w (res_world (create_alert DT_CTRL EVENT_NAME args types e et ret w)).
Proof.
  rewrite create_alert_unfold. destruct (bool_decide _); [|reflexivity].
  destruct (slot (EVENTS w) e et) as [[a|callback]|]; [| |reflexivity].
  - apply gate_then_frame_catalog.
  - destruct (callback args); [apply gate_then_frame_alloc|reflexivity].
Qed.

(** A loop keeps what each run of its body keeps. *)
Lemma for_each_res_world {A S} (R : relation (World PyVal)) `{!PreOrder R}
    (body : A → S → M PyVal S) :
  (∀ x s w, R w (res_world (body x s w))) →
  ∀ l s w, R w (res_world (for_each l body s w)).
Proof.
  intros Hbody. induction l as [|x l IH]; intros s w; simpl; [reflexivity|].
  unfold mbind, M_MBind, M_bind. specialize (Hbody x s w).
  destruct (body x s w) as [s' w'|ex w']; simpl in *; [|done].
  etrans; [exact Hbody|apply IH].
Qed.

(** The body of the outer loop of [create_alerts]. *)
Lemma outer_body_unfold args (event_types : list string) e ret w :
  (w0 ← get_world;
   types ← subscript (EVENTS w0) e;
   for_each event_types
     (create_alert DT_CTRL EVENT_NAME args (dom types) e) ret) w
  = match EVENTS w !! e with
    | Some types =>
        for_each event_types
          (create_alert DT_CTRL EVENT_NAME args (dom types) e) ret w
    | None => Raise KeyError w
    end.
Proof.
  unfold mbind, M_MBind, M_bind, get_world, subscript.
  by destruct (EVENTS w !! e).
Qed.

Lemma outer_body_frame args (event_types : list string) e ret w :
  frame w (res_world
    ((w0 ← get_world;
      types ← subscript (EVENTS w0) e;
      for_each event_types
        (create_alert DT_CTRL EVENT_NAME args (dom types) e) ret) w)).
Proof.
  rewrite outer_body_unfold. destruct (EVENTS w !! e) as [types|]; [|reflexivity].
  apply for_each_res_world; [apply _|]. intros. apply create_alert_frame.
Qed.

Lemma create_alerts_frame (event_types : list string)
    (callback_args : option (list PyVal)) w :
  frame w (res_world (create_alerts DT_CTRL EVENT_NAME event_types callback_args w)).
Proof.
  unfold create_alerts. unfold mbind at 1, M_MBind at 1, M_bind at 1, get_world at 1.
  apply (for_each_res_world frame). intros e ret w'. apply outer_body_frame.
Qed.

(** *** The alerts a call returns *)

Lemma resolves_alloc w0 w args (s : EventName * string) r a :
  resolves EVENT_NAME w0 w args s r → resolves EVENT_NAME w0 (alloc a w) args s r.
Proof.
  intros (a0 & n & Ha & Hn & Hd & Hm). exists a0, n.
  split; [done|]. split; [done|]. split; [|done]. by apply deref_alloc.
Qed.

Lemma resolves_stamp_catalog w0 w args (s : EventName * string) r e et n :
  EVENT_NAME !! e = Some n →
  resolves EVENT_NAME w0 w args s r →
  resolves EVENT_NAME w0 (stamp_world (InCatalog e et) n et w) args s r.
Proof.
  intros Hn0 (a0 & n' & Ha & Hn & Hd & Hm). exists a0, n'.
  split; [done|]. split; [done|]. split; [|done].
  rewrite deref_stamp_world. destruct (decide (InCatalog e et = r)) as [<-|]; [|done].
  destruct (slot (EVENTS w0) s.1 s.2) as [[af|c]|];
    [|destruct Hm as (i & Hi & _); discriminate Hi..].
  injection Hm as He Het. rewrite <- He in Hn. rewrite <- Het.
  rewrite Hn0 in Hn. injection Hn as <-.
  rewrite Hd. simpl. rewrite <- Het. by rewrite stamp_stamp.
Qed.

Lemma deref_catalog_slot w e et a :
  slot (EVENTS w) e et = Some (Fixed a) → deref w (InCatalog e et) = Some a.
Proof. unfold slot, deref. by intros ->. Qed.

Lemma gate_open_singleton w0 args e et a prev :
  slot_alert w0 args e et = Some a →
  events_prev (self w0) !! e = Some prev →
  filter (gate_open DT_CTRL w0 args) [(e, et)]
  = if bool_decide (creation_delay a ≤ DT_CTRL * Qc_of_nat (prev + 1))%Qc
    then [(e, et)] else [].
Proof.
  intros Ha Hp. case_bool_decide as Hg.
  - rewrite filter_cons_True; [done|]. exists a, prev. done.
  - rewrite filter_cons_False; [done|].
    intros (a' & prev' & Ha' & Hp' & Hg'). simpl in *.
    rewrite Ha in Ha'. rewrite Hp in Hp'.
    injection Ha' as <-. injection Hp' as <-. done.
Qed.

Lemma pairs_with_entry_cons C e (evs : list EventName) (event_types : list string) :
  pairs_with_entry C (e :: evs) event_types
  = pairs_with_entry C [e] event_types ++ pairs_with_entry C evs event_types.
Proof. unfold pairs_with_entry. rewrite !bind_cons. simpl. by rewrite app_nil_r. Qed.

Lemma pairs_with_entry_singleton C e (event_types : list string) :
  pairs_with_entry C [e] event_types
  = event_types ≫= λ et, if decide (is_Some (slot C e et)) then [(e, et)] else [].
Proof. unfold pairs_with_entry. rewrite bind_cons. simpl. by rewrite app_nil_r. Qed.

Lemma create_alert_step w0 args fired ret w (types : gset string) e et ret' w' :
  frame w0 w →
  Forall2 (resolves EVENT_NAME w0 w args) fired ret →
  (∀ et', et' ∈ types ↔ is_Some (slot (EVENTS w0) e et')) →
  create_alert DT_CTRL EVENT_NAME args types e et ret w = Ok ret' w' →
  Forall2 (resolves EVENT_NAME w0 w' args)
    (fired ++ filter (gate_open DT_CTRL w0 args)
                (if decide (is_Some (slot (EVENTS w0) e et)) then [(e, et)] else []))
    ret'.
Proof.
  intros (Hself & Hcat & Hpre) Hold Htypes Hrun.
  rewrite create_alert_unfold in Hrun. case_bool_decide as Hin.
  2:{ apply Ok_inj in Hrun as [<- <-]. rewrite decide_False by (by rewrite <- Htypes).
      by rewrite filter_nil, app_nil_r. }
  apply Htypes in Hin. rewrite decide_True by done.
  pose proof (unstamped_slot _ _ e et Hcat) as Hslot.
  destruct Hin as [entry0 Hentry0]. rewrite Hentry0 in Hslot.
  destruct (slot (EVENTS w) e et) as [entry|] eqn:Hentry; [|done].
  simpl in Hslot. apply (inj Some) in Hslot.
  destruct entry0 as [a0|callback].
  - apply on_fixed_unstamp_Fixed in Hslot as (a & -> & Hua).
    assert (Hsa : slot_alert w0 args e et = Some a0)
      by (unfold slot_alert; by rewrite Hentry0).
    unfold gate_then in Hrun. rewrite Hself in Hrun.
    destruct (events_prev (self w0) !! e) as [prev|] eqn:Hprev; [|done].
    rewrite (gate_open_singleton _ _ _ _ _ _ Hsa Hprev).
    rewrite (creation_delay_unstamp _ _ Hua) in Hrun.
    destruct (bool_decide _); [|apply Ok_inj in Hrun as [<- <-]; by rewrite app_nil_r].
    destruct (EVENT_NAME !! e) as [n|] eqn:Hn; [|done].
    apply Ok_inj in Hrun as [<- <-]. apply Forall2_app.
    + eapply list.Forall2_impl; [exact Hold|]. intros s r.
      by apply resolves_stamp_catalog.
    + constructor; [|constructor]. exists a0, n. cbn [fst snd].
      split; [done|]. split; [done|]. split; [|by rewrite Hentry0].
      rewrite deref_stamp_world, decide_True by done.
      rewrite (deref_catalog_slot _ _ _ _ Hentry). simpl.
      by rewrite (stamp_eq _ _ _ _ Hua).
  - apply on_fixed_unstamp_Dynamic in Hslot as ->.
    destruct (callback args) as [a|x] eqn:Hcall; [|done].
    assert (Hsa : slot_alert w0 args e et = Some a)
      by (unfold slot_alert; by rewrite Hentry0, Hcall).
    unfold gate_then in Hrun.
    change (events_prev (self (alloc a w))) with (events_prev (self w)) in Hrun.
    rewrite Hself in Hrun.
    destruct (events_prev (self w0) !! e) as [prev|] eqn:Hprev; [|done].
    rewrite (gate_open_singleton _ _ _ _ _ _ Hsa Hprev).
    destruct (bool_decide _).
    2:{ apply Ok_inj in Hrun as [<- <-]. rewrite app_nil_r.
        eapply list.Forall2_impl; [exact Hold|]. intros s r. apply resolves_alloc. }
    destruct (EVENT_NAME !! e) as [n|] eqn:Hn; [|done].
    rewrite stamp_world_alloc in Hrun.
    apply Ok_inj in Hrun as [<- <-]. apply Forall2_app.
    + eapply list.Forall2_impl; [exact Hold|]. intros s r. apply resolves_alloc.
    + constructor; [|constructor]. exists a, n. cbn [fst snd].
      split; [done|]. split; [done|]. split; [apply deref_alloc_new|].
      rewrite Hentry0. eexists. split; [done|]. by apply prefix_length.
Qed.

Lemma inner_loop_resolves w0 args (types : gset string) e
    (event_types : list string) fired ret w ret' w' :
  frame w0 w →
  Forall2 (resolves EVENT_NAME w0 w args) fired ret →
  (∀ et', et' ∈ types ↔ is_Some (slot (EVENTS w0) e et')) →
  for_each event_types (create_alert DT_CTRL EVENT_NAME args types e) ret w
    = Ok ret' w' →
  frame w0 w'
  ∧ Forall2 (resolves EVENT_NAME w0 w' args)
      (fired ++ filter (gate_open DT_CTRL w0 args)
                  (pairs_with_entry (EVENTS w0) [e] event_types))
      ret'.
Proof.
  intros Hf Hold Htypes. rewrite pairs_with_entry_singleton.
  revert fired ret w Hf Hold.
  induction event_types as [|et ets IH]; intros fired ret w Hf Hold Hrun.
  - injection Hrun as <- <-. by rewrite app_nil_r.
  - simpl in Hrun. unfold mbind at 1, M_MBind at 1, M_bind at 1 in Hrun.
    pose proof (create_alert_frame args types e et ret w) as Hf1.
    destruct (create_alert DT_CTRL EVENT_NAME args types e et ret w)
      as [ret1 w1|x w1] eqn:Hstep; [|done].
    simpl in Hf1.
    pose proof (create_alert_step _ _ _ _ _ _ _ _ _ _ Hf Hold Htypes Hstep) as Hnew.
    assert (Hf01 : frame w0 w1) by (by etrans).
    destruct (IH _ _ _ Hf01 Hnew Hrun) as [Hf' Hall]. split; [done|].
    rewrite bind_cons, list.filter_app, app_assoc. exact Hall.
Qed.

Lemma outer_loop_resolves w0 args (event_types : list string)
    (evs : list EventName) fired ret w ret' w' :
  frame w0 w →
  Forall2 (resolves EVENT_NAME w0 w args) fired ret →
  for_each evs
    (λ e ret,
       w ← get_world;
       types ← subscript (EVENTS w) e;
       for_each event_types
         (create_alert DT_CTRL EVENT_NAME args (dom types) e) ret)
    ret w = Ok ret' w' →
  frame w0 w'
  ∧ Forall2 (resolves EVENT_NAME w0 w' args)
      (fired ++ filter (gate_open DT_CTRL w0 args)
                  (pairs_with_entry (EVENTS w0) evs event_types))
      ret'.
Proof.
  revert fired ret w.
  induction evs as [|e evs IH]; intros fired ret w Hf Hold Hrun.
  - injection Hrun as <- <-. by rewrite app_nil_r.
  - simpl in Hrun. unfold mbind at 1, M_MBind at 1, M_bind at 1 in Hrun.
    rewrite outer_body_unfold in Hrun.
    destruct (EVENTS w !! e) as [types|] eqn:Htypes; [|done].
    destruct (for_each event_types _ ret w) as [ret1 w1|x w1] eqn:Hinner; [|done].
    assert (Hdom : ∀ et', et' ∈ (dom types : gset string)
                          ↔ is_Some (slot (EVENTS w0) e et')).
    { destruct Hf as (_ & Hcat & _).
      destruct (unstamped_lookup_Some _ _ _ _ Hcat Htypes) as (d0 & Hd0 & Hiff).
      intros et'. unfold slot. rewrite Hd0. simpl.
      rewrite elem_of_dom. apply Hiff. }
    destruct (inner_loop_resolves _ _ _ _ _ _ _ _ _ _ Hf Hold Hdom Hinner)
      as [Hf1 Hnew].
    destruct (IH _ _ _ Hf1 Hnew Hrun) as [Hf' Hall]. split; [done|].
    by rewrite pairs_with_entry_cons, list.filter_app, app_assoc.
Qed.

(** The alerts returned are, in order, those of the candidate pairs whose
    creation-delay gate is open. *)
Lemma create_alerts_resolves (event_types : list string)
    (callback_args : option (list PyVal)) w refs w' :
  create_alerts DT_CTRL EVENT_NAME event_types callback_args w = Ok refs w' →
  Forall2 (resolves EVENT_NAME w w' (default [] callback_args))
    (filter (gate_open DT_CTRL w (default [] callback_args))
       (candidates w event_types))
    refs.
Proof.
  unfold create_alerts.
  unfold mbind at 1, M_MBind at 1, M_bind at 1, get_world at 1.
  intros Hrun.
  by destruct (outer_loop_resolves w (default [] callback_args) event_types
                 (events (self w)) [] [] w refs w'
                 ltac:(reflexivity) ltac:(constructor) Hrun) as [_ H].
Qed.

Lemma for_each_cons {A S} (x : A) (l : list A) (body : A → S → M PyVal S) (s : S) w :
  for_each (x :: l) body s w
  = match body x s w with
    | Ok s' w' => for_each l body s' w'
    | Raise ex w' => Raise ex w'
    end.
Proof. reflexivity. Qed.

Lemma create_alerts_unfold (event_types : list string)
    (callback_args : option (list PyVal)) w :
  create_alerts DT_CTRL EVENT_NAME event_types callback_args w
  = for_each (events (self w))
      (λ e ret,
         w ← get_world;
         types ← subscript (EVENTS w) e;
         for_each event_types
           (create_alert DT_CTRL EVENT_NAME (default [] callback_args) (dom types) e)
           ret)
      [] w.
Proof. reflexivity. Qed.

(** *** Two runs from states that differ in stamps only *)

Lemma frame_similar w w' : frame w w' → similar w w'.
Proof. intros (Hs & Hc & _). by split. Qed.

Lemma similar_frames w v w' v' :
  similar w v → frame w w' → frame v v' → similar w' v'.
Proof.
  intros [Hs Hc] (Hs1 & Hc1 & _) (Hs2 & Hc2 & _). split; congruence.
Qed.

Lemma gate_then_returned e et ret ret2 r r2 a a' w v :
  self w = self v → creation_delay a = creation_delay a' →
  returned (gate_then DT_CTRL EVENT_NAME e et ret r a w) →
  returned (gate_then DT_CTRL EVENT_NAME e et ret2 r2 a' v).
Proof.
  unfold gate_then. intros -> ->.
  destruct (events_prev (self v) !! e); [|done].
  destruct (bool_decide _); [|done].
  by destruct (EVENT_NAME !! e).
Qed.

Lemma create_alert_returned args (types : gset string) e et ret ret2 w v :
  similar w v →
  returned (create_alert DT_CTRL EVENT_NAME args types e et ret w) →
  returned (create_alert DT_CTRL EVENT_NAME args types e et ret2 v).
Proof.
  intros [Hs Hc]. rewrite !create_alert_unfold.
  destruct (bool_decide _); [|done].
  pose proof (unstamped_slot _ _ e et Hc) as Hslot.
  destruct (slot (EVENTS v) e et) as [[a'|c']|];
    destruct (slot (EVENTS w) e et) as [x|]; simpl in Hslot; try done.
  - apply (inj Some) in Hslot.
    apply on_fixed_unstamp_Fixed in Hslot as (a & -> & Hu).
    apply gate_then_returned; [done|]. by apply creation_delay_unstamp.
  - apply (inj Some) in Hslot. apply on_fixed_unstamp_Dynamic in Hslot as ->.
    destruct (c' args) as [a|ex]; [|done].
    by apply gate_then_returned.
Qed.

Lemma inner_loop_returned args (types : gset string) e (event_types : list string)
    ret ret2 w v :
  similar w v →
  returned (for_each event_types
              (create_alert DT_CTRL EVENT_NAME args types e) ret w) →
  returned (for_each event_types
              (create_alert DT_CTRL EVENT_NAME args types e) ret2 v).
Proof.
  revert ret ret2 w v.
  induction event_types as [|et ets IH]; intros ret ret2 w v Hsim; [done|].
  rewrite !for_each_cons.
  pose proof (create_alert_frame args types e et ret w) as Hfw.
  pose proof (create_alert_frame args types e et ret2 v) as Hfv.
  pose proof (create_alert_returned args types e et ret ret2 w v Hsim) as Hstep.
  destruct (create_alert DT_CTRL EVENT_NAME args types e et ret w)
    as [ret1 w1|x w1]; [|done].
  destruct (create_alert DT_CTRL EVENT_NAME args types e et ret2 v)
    as [ret1' v1|x v1]; [|by specialize (Hstep I)].
  apply IH. by eapply similar_frames.
Qed.

Lemma similar_dom_types w v e (d d' : gmap string (CatalogEntry PyVal)) :
  similar w v → EVENTS w !! e = Some d → EVENTS v !! e = Some d' →
  (dom d : gset string) = dom d'.
Proof.
  intros [_ Hc] Hd Hd'.
  destruct (unstamped_lookup_Some _ _ _ _ Hc Hd) as (d2 & Hd2 & Hiff).
  rewrite Hd' in Hd2. injection Hd2 as <-.
  apply set_eq. intros et. rewrite !elem_of_dom. apply Hiff.
Qed.

Lemma outer_loop_returned args (event_types : list string) (evs : list EventName)
    ret ret2 w v :
  similar w v →
  returned (for_each evs
    (λ e ret,
       w ← get_world;
       types ← subscript (EVENTS w) e;
       for_each event_types
         (create_alert DT_CTRL EVENT_NAME args (dom types) e) ret) ret w) →
  returned (for_each evs
    (λ e ret,
       w ← get_world;
       types ← subscript (EVENTS w) e;
       for_each event_types
         (create_alert DT_CTRL EVENT_NAME args (dom types) e) ret) ret2 v).
Proof.
  revert ret ret2 w v.
  induction evs as [|e evs IH]; intros ret ret2 w v Hsim; [done|].
  rewrite !for_each_cons.
  pose proof (outer_body_frame args event_types e ret w) as Hfw.
  pose proof (outer_body_frame args event_types e ret2 v) as Hfv.
  rewrite !outer_body_unfold in *.
  destruct (EVENTS w !! e) as [d|] eqn:Hd; [|done].
  destruct (unstamped_lookup_Some _ _ _ _ (proj2 Hsim) Hd) as (d' & Hd' & _).
  rewrite Hd' in *.
  rewrite <- (similar_dom_types _ _ _ _ _ Hsim Hd Hd') in *.
  pose proof (inner_loop_returned args (dom d) e event_types ret ret2 w v Hsim)
    as Hinner.
  destruct (for_each event_types _ ret w) as [ret1 w1|x w1]; [|done].
  destruct (for_each event_types _ ret2 v) as [ret1' v1|x v1];
    [|by specialize (Hinner I)].
  apply IH. by eapply similar_frames.
Qed.

Lemma create_alerts_returned (event_types : list string)
    (callback_args : option (list PyVal)) w v :
  similar w v →
  returned (create_alerts DT_CTRL EVENT_NAME event_types callback_args w) →
  returned (create_alerts DT_CTRL EVENT_NAME event_types callback_args v).
Proof.
  intros Hsim. rewrite !create_alerts_unfold.
  rewrite (proj1 Hsim). by apply outer_loop_returned.
Qed.

Lemma pairs_with_entry_similar C C' (evs : list EventName) (event_types : list string) :
  unstamped C = unstamped C' →
  pairs_with_entry C evs event_types = pairs_with_entry C' evs event_types.
Proof.
  intros Hc. unfold pairs_with_entry.
  apply list_bind_ext; [|done]. intros e.
  apply list_bind_ext; [|done]. intros et.
  pose proof (unstamped_slot _ _ e et Hc) as Hslot.
  destruct (slot C e et), (slot C' e et); simpl in Hslot; done.
Qed.

Lemma slot_alert_similar w v args e et a :
  similar w v → slot_alert w args e et = Some a →
  ∃ a', slot_alert v args e et = Some a' ∧ unstamp a' = unstamp a.
Proof.
  intros [_ Hc]. unfold slot_alert.
  pose proof (unstamped_slot _ _ e et Hc) as Hslot.
  destruct (slot (EVENTS w) e et) as [[a0|c]|]; [| |done]; simpl in Hslot;
    destruct (slot (EVENTS v) e et) as [x|]; try done;
    simpl in Hslot; apply (inj Some) in Hslot; symmetry in Hslot.
  - apply on_fixed_unstamp_Fixed in Hslot as (a' & -> & Hu).
    intros [= <-]. eauto.
  - apply on_fixed_unstamp_Dynamic in Hslot as ->.
    destruct (c args); [|done]. intros [= <-]. eauto.
Qed.

Lemma gate_open_similar w v args (s : EventName * string) :
  similar w v → gate_open DT_CTRL w args s → gate_open DT_CTRL v args s.
Proof.
  intros Hsim (a & prev & Ha & Hp & Hg).
  destruct (slot_alert_similar _ _ _ _ _ _ Hsim Ha) as (a' & Ha' & Hu).
  exists a', prev. split; [done|]. split; [by rewrite <- (proj1 Hsim)|].
  by rewrite (creation_delay_unstamp _ _ Hu).
Qed.

Lemma similar_sym w v : similar w v → similar v w.
Proof. intros [? ?]. by split. Qed.

(** *** When a call returns *)

Lemma slot_similar_Dynamic w v e et callback :
  similar w v → slot (EVENTS v) e et = Some (Dynamic callback) →
  slot (EVENTS w) e et = Some (Dynamic callback).
Proof.
  intros [_ Hc] Hv. pose proof (unstamped_slot _ _ e et Hc) as Hslot.
  rewrite Hv in Hslot. destruct (slot (EVENTS w) e et) as [x|]; [|done].
  simpl in Hslot. apply (inj Some) in Hslot.
  by apply on_fixed_unstamp_Dynamic in Hslot as ->.
Qed.

Lemma gate_then_returns e et ret r a w :
  is_Some (events_prev (self w) !! e) → is_Some (EVENT_NAME !! e) →
  returned (gate_then DT_CTRL EVENT_NAME e et ret r a w).
Proof.
  intros [prev Hp] [n Hn]. unfold gate_then. rewrite Hp, Hn.
  by destruct (bool_decide _).
Qed.

Lemma create_alert_returns args (types : gset string) e et ret w :
  (et ∈ types → is_Some (slot (EVENTS w) e et)) →
  is_Some (events_prev (self w) !! e) → is_Some (EVENT_NAME !! e) →
  (∀ callback, slot (EVENTS w) e et = Some (Dynamic callback) →
               ∃ a, callback args = Returns a) →
  returned (create_alert DT_CTRL EVENT_NAME args types e et ret w).
Proof.
  intros Htypes Hp Hn Hcall. rewrite create_alert_unfold.
  case_bool_decide as Hin; [|done].
  destruct (Htypes Hin) as [[a|callback] Hslot]; rewrite Hslot.
  - by apply gate_then_returns.
  - destruct (Hcall callback Hslot) as [a ->]. by apply gate_then_returns.
Qed.

Lemma inner_loop_returns w0 args (types : gset string) e
    (event_types : list string) ret w :
  similar w0 w →
  (∀ et, et ∈ types → is_Some (slot (EVENTS w0) e et)) →
  is_Some (events_prev (self w0) !! e) → is_Some (EVENT_NAME !! e) →
  (∀ et callback,
     et ∈ event_types → slot (EVENTS w0) e et = Some (Dynamic callback) →
     ∃ a, callback args = Returns a) →
  returned (for_each event_types
              (create_alert DT_CTRL EVENT_NAME args types e) ret w).
Proof.
  intros Hsim Htypes Hp Hn. revert ret w Hsim.
  induction event_types as [|et ets IH]; intros ret w Hsim Hcall; [done|].
  rewrite for_each_cons.
  pose proof (create_alert_frame args types e et ret w) as Hf.
  assert (Hstep : returned (create_alert DT_CTRL EVENT_NAME args types e et ret w)).
  { apply create_alert_returns; [| |done|].
    - intros Hin. destruct (Htypes et Hin) as [x Hx].
      pose proof (unstamped_slot _ _ e et (proj2 Hsim)) as Hslot.
      rewrite Hx in Hslot. by destruct (slot (EVENTS w) e et).
    - by rewrite <- (proj1 Hsim).
    - intros callback Hslot. apply (Hcall et); [apply list_elem_of_here|].
      by eapply slot_similar_Dynamic. }
  destruct (create_alert DT_CTRL EVENT_NAME args types e et ret w)
    as [ret1 w1|x w1]; [|done].
  apply IH.
  - destruct Hsim as [Hs Hc]. simpl in Hf. destruct Hf as (Hs1 & Hc1 & _).
    split; congruence.
  - intros et' callback Hin. apply Hcall. by apply list_elem_of_further.
Qed.

Lemma outer_loop_returns w0 args (event_types : list string)
    (evs : list EventName) ret w :
  similar w0 w →
  (∀ e, e ∈ evs →
     is_Some (EVENTS w0 !! e)
     ∧ is_Some (events_prev (self w0) !! e)
     ∧ is_Some (EVENT_NAME !! e)
     ∧ ∀ et callback,
         et ∈ event_types → slot (EVENTS w0) e et = Some (Dynamic callback) →
         ∃ a, callback args = Returns a) →
  returned (for_each evs
    (λ e ret,
       w ← get_world;
       types ← subscript (EVENTS w) e;
       for_each event_types
         (create_alert DT_CTRL EVENT_NAME args (dom types) e) ret) ret w).
Proof.
  revert ret w. induction evs as [|e evs IH]; intros ret w Hsim Hall; [done|].
  rewrite for_each_cons.
  pose proof (outer_body_frame args event_types e ret w) as Hf.
  rewrite outer_body_unfold in *.
  destruct (Hall e (list_elem_of_here _ _)) as ([d0 Hd0] & Hp & Hn & Hcall).
  destruct (unstamped_lookup_Some _ _ _ _ (proj2 Hsim) Hd0) as (d & Hd & Hiff).
  rewrite Hd in *.
  assert (Hinner : returned (for_each event_types
            (create_alert DT_CTRL EVENT_NAME args (dom d) e) ret w)).
  { apply (inner_loop_returns w0); try done.
    intros et Hin. apply elem_of_dom, Hiff in Hin.
    unfold slot. by rewrite Hd0. }
  destruct (for_each event_types _ ret w) as [ret1 w1|x w1]; [|done].
  apply IH.
  - destruct Hsim as [Hs Hc]. simpl in Hf. destruct Hf as (Hs1 & Hc1 & _).
    split; congruence.
  - intros e' Hin. apply Hall. by apply list_elem_of_further.
Qed.

(** A call returns on every state that is [resolvable]. *)
Lemma create_alerts_returns (event_types : list string)
    (callback_args : option (list PyVal)) w :
  resolvable EVENT_NAME w event_types (default [] callback_args) →
  returned (create_alerts DT_CTRL EVENT_NAME event_types callback_args w).
Proof.
  intros Hres. rewrite create_alerts_unfold.
  by apply (outer_loop_returns w).
Qed.

(** A call that raised raises again when it is repeated. *)
Lemma create_alerts_raises_again (event_types : list string)
    (callback_args : option (list PyVal)) w x w1 :
  create_alerts DT_CTRL EVENT_NAME event_types callback_args w = Raise x w1 →
  ¬ returned (create_alerts DT_CTRL EVENT_NAME event_types callback_args w1).
Proof.
  intros Hrun Hret.
  pose proof (create_alerts_frame event_types callback_args w) as Hf.
  rewrite Hrun in Hf. simpl in Hf.
  pose proof (create_alerts_returned event_types callback_args w1 w
                (similar_sym _ _ (frame_similar _ _ Hf)) Hret) as Hback.
  by rewrite Hrun in Hback.
Qed.

(** *** An active identifier that the catalog does not know *)

Lemma outer_loop_unknown_event args (event_types : list string)
    (evs : list EventName) e ret w :
  e ∈ evs → EVENTS w !! e = None →
  ¬ returned (for_each evs
    (λ e ret,
       w ← get_world;
       types ← subscript (EVENTS w) e;
       for_each event_types
         (create_alert DT_CTRL EVENT_NAME args (dom types) e) ret) ret w).
Proof.
  revert ret w. induction evs as [|e' evs IH]; intros ret w Hin Hnone.
  - by apply elem_of_nil in Hin.
  - rewrite for_each_cons.
    pose proof (outer_body_frame args event_types e' ret w) as Hf.
    rewrite outer_body_unfold in *.
    destruct (EVENTS w !! e') as [d|] eqn:Hd; [|by intros []].
    destruct (for_each event_types _ ret w) as [ret1 w1|x w1]; [|by intros []].
    apply elem_of_cons in Hin as [->|Hin]; [congruence|].
    apply IH; [done|]. destruct Hf as (_ & Hc & _).
    symmetry in Hc. by eapply unstamped_lookup_None.
Qed.

(** *** Streak counters over consecutive cycles *)





Lemma elem_of_candidates w (event_types : list string) e et :
  (e, et) ∈ candidates w event_types
  ↔ e ∈ events (self w) ∧ et ∈ event_types ∧ is_Some (slot (EVENTS w) e et).
Proof.
  unfold candidates, pairs_with_entry. rewrite list_elem_of_bind. split.
  - intros (e' & Hin & He'). apply list_elem_of_bind in Hin as (et' & Hin & Het').
    destruct (decide (is_Some (slot (EVENTS w) e' et'))) as [Hs|];
      [|by apply elem_of_nil in Hin].
    apply list_elem_of_singleton in Hin as [= -> ->]. done.
  - intros (He & Het & Hs). exists e. split; [|done].
    apply list_elem_of_bind. exists et. split; [|done].
    rewrite decide_True by done. by apply list_elem_of_singleton.
Qed.


(** *** The claims on [create_alerts] *)


(** C3, on the code.  When the active list holds an identifier that is not
    a key of the catalog, [create_alerts] does not return: it raises, for
    every list of event types, while [any] treats that identifier as one
    without event types. *)
Theorem create_alerts_unknown_event_raises
    (w : World PyVal) (e : EventName) (event_types : list string)
    (callback_args : option (list PyVal)) :
  e ∈ events (self w) → EVENTS w !! e = None →
  (∃ x w', create_alerts DT_CTRL EVENT_NAME event_types callback_args w = Raise x w')
  ∧ ∀ et, any (EVENTS w) et (self w) = true
          ↔ ∃ e', e' ∈ events (self w) ∧ is_Some (slot (EVENTS w) e' et).
Proof.
  intros Hin Hnone. split.
  - pose proof (outer_loop_unknown_event (default [] callback_args) event_types
                  (events (self w)) e [] w Hin Hnone) as Hraise.
    rewrite <- create_alerts_unfold in Hraise.
    destruct (create_alerts _ _ _ _ w) as [refs w'|x w']; [by destruct Hraise|].
    by exists x, w'.
  - intros et. unfold any. rewrite existsb_exists. split.
    + intros (e' & He' & Hb). exists e'. split; [by apply list_elem_of_In|].
      apply bool_decide_eq_true in Hb. apply elem_of_dom in Hb.
      unfold slot. by destruct (EVENTS w !! e').
    + intros (e' & He' & Hs). exists e'. split; [by apply list_elem_of_In|].
      apply bool_decide_eq_true. apply elem_of_dom.
      unfold slot in Hs. by destruct (EVENTS w !! e').
Qed.



Lemma resolves_twice w w1 w2 args (s : EventName * string) r1 r2 :
  frame w w1 → frame w1 w2 →
  resolves EVENT_NAME w w1 args s r1 →
  resolves EVENT_NAME w1 w2 args s r2 →
  deref w2 r2 = deref w1 r1
  ∧ deref w2 r1 = deref w1 r1
  ∧ is_Some (deref w1 r1).
Proof.
  intros Hf1 Hf2 (a & n & Ha & Hn & Hd1 & Hm1) (a' & n' & Ha' & Hn' & Hd2 & Hm2).
  rewrite Hn in Hn'. injection Hn' as <-.
  destruct (slot_alert_similar _ _ _ _ _ _ (frame_similar _ _ Hf1) Ha)
    as (a'' & Ha'' & Hu).
  rewrite Ha' in Ha''. injection Ha'' as <-.
  assert (Heq : deref w2 r2 = deref w1 r1).
  { rewrite Hd1, Hd2. f_equal. by apply stamp_eq. }
  split; [done|]. split; [|by rewrite Hd1].
  destruct Hf1 as (_ & Hc1 & _). destruct Hf2 as (_ & _ & Hp2).
  pose proof (unstamped_slot _ _ s.1 s.2 Hc1) as Hslot.
  destruct (slot (EVENTS w) s.1 s.2) as [[a0|c]|].
  - simpl in Hslot. destruct (slot (EVENTS w1) s.1 s.2) as [x|]; [|done].
    simpl in Hslot. apply (inj Some) in Hslot.
    apply on_fixed_unstamp_Fixed in Hslot as (a1 & -> & _).
    rewrite <- Heq. by rewrite Hm1, Hm2.
  - destruct Hm1 as (i & -> & _). simpl in *. rewrite Hd1.
    by eapply prefix_lookup_Some.
  - destruct Hm1 as (i & -> & _). simpl in *. rewrite Hd1.
    by eapply prefix_lookup_Some.
Qed.

(** C9. When a call of [create_alerts] returns, a second call in the same
    cycle with the same arguments returns too; neither changes the
    [Events] instance; the alerts of the second call are, one by one, equal
    in every field to the alerts of the first, which the second call has
    left as they were. *)
Theorem create_alerts_idempotent
    (w : World PyVal) (event_types : list string)
    (callback_args : option (list PyVal)) (refs1 : list AlertRef) (w1 : World PyVal) :
  create_alerts DT_CTRL EVENT_NAME event_types callback_args w = Ok refs1 w1 →
  ∃ refs2 w2,
    create_alerts DT_CTRL EVENT_NAME event_types callback_args w1 = Ok refs2 w2
    ∧ self w1 = self w ∧ self w2 = self w
    ∧ Forall (λ r, is_Some (deref w1 r)) refs1
    ∧ deref w2 <$> refs2 = deref w1 <$> refs1
    ∧ deref w2 <$> refs1 = deref w1 <$> refs1.
Proof.
  intros Hrun1.
  pose proof (create_alerts_frame event_types callback_args w) as Hf1.
  rewrite Hrun1 in Hf1. simpl in Hf1.
  pose proof (frame_similar _ _ Hf1) as Hsim.
  pose proof (create_alerts_returned event_types callback_args w w1 Hsim) as Hret.
  rewrite Hrun1 in Hret. specialize (Hret I).
  pose proof (create_alerts_frame event_types callback_args w1) as Hf2.
  destruct (create_alerts DT_CTRL EVENT_NAME event_types callback_args w1)
    as [refs2 w2|x w2] eqn:Hrun2; [|done].
  simpl in Hf2. exists refs2, w2. split; [done|].
  split; [apply Hf1|]. split; [by rewrite (proj1 Hf2), (proj1 Hf1)|].
  pose proof (create_alerts_resolves _ _ _ _ _ Hrun1) as H1.
  pose proof (create_alerts_resolves _ _ _ _ _ Hrun2) as H2.
  assert (Hcand : candidates w1 event_types = candidates w event_types).
  { unfold candidates. rewrite (proj1 Hf1).
    apply pairs_with_entry_similar, Hf1. }
  rewrite Hcand in H2.
  rewrite (list_filter_iff (gate_open DT_CTRL w1 (default [] callback_args))
             (gate_open DT_CTRL w (default [] callback_args))) in H2.
  2:{ intros s. split; apply gate_open_similar; [by apply similar_sym|done]. }
  apply Forall2_flip in H1.
  pose proof (Forall2_trans _ _
    (λ r1 r2, deref w2 r2 = deref w1 r1 ∧ deref w2 r1 = deref w1 r1
              ∧ is_Some (deref w1 r1)) _ _ _
    (λ r1 s r2 Hr1 Hr2, resolves_twice _ _ _ _ s r1 r2 Hf1 Hf2 Hr1 Hr2) H1 H2)
    as Hboth.
  clear -Hboth. induction Hboth as [|r1 r2 l1 l2 (E1 & E2 & E3) _ (IH1 & IH2 & IH3)].
  - split; [constructor|done].
  - split; [by constructor|]. csimpl. by rewrite E1, E2, IH2, IH3.
Qed.
End CreateAlertsProps.

(** ** The claims at concrete inputs *)

(** [reverseGear] has a permanent alert with a creation delay of half a
    second and a no-entry alert without delay.  With a period of 0.01 s the
    permanent alert is not returned in the 49th consecutive cycle and is
    returned in the 50th. *)
Example reverseGear_cycle_49 :
  ∃ w', create_alerts DT_CTRL_100Hz EVENT_NAME_0 [ET.PERMANENT; ET.NO_ENTRY] None
          (world_0 (run_cycles (reverse_cycles 49) (Events_init EVENTS_0)))
        = Ok [InCatalog EventName.reverseGear ET.NO_ENTRY] w'.
Proof. eexists. vm_compute. reflexivity. Qed.

Example reverseGear_cycle_50 :
  ∃ w', create_alerts DT_CTRL_100Hz EVENT_NAME_0 [ET.PERMANENT; ET.NO_ENTRY] None
          (world_0 (run_cycles (reverse_cycles 50) (Events_init EVENTS_0)))
        = Ok [InCatalog EventName.reverseGear ET.PERMANENT;
              InCatalog EventName.reverseGear ET.NO_ENTRY] w'.
Proof. eexists. vm_compute. reflexivity. Qed.


(** The failing input of C3: a message with an identifier outside the
    catalog is ingested, then the alerts are resolved. *)
Lemma create_alerts_unknown_event_raises_witness :
  let w := world_0 (add_from_msg [ {| name := unknown_event; flags := ∅ |} ]
                      (Events_init EVENTS_0)) in
  (∃ x w', create_alerts DT_CTRL_100Hz EVENT_NAME_0 [ET.WARNING] None w = Raise x w')
  ∧ ∀ et, any (EVENTS w) et (self w) = true
          ↔ ∃ e', e' ∈ events (self w) ∧ is_Some (slot (EVENTS w) e' et).
Proof.
  intros w.
  apply (create_alerts_unknown_event_raises DT_CTRL_100Hz EVENT_NAME_0 w unknown_event).
  - apply list_elem_of_here.
  - vm_compute. reflexivity.
Defined.

Example create_alerts_unknown_event_KeyError :
  let w := world_0 (add_from_msg [ {| name := unknown_event; flags := ∅ |} ]
                      (Events_init EVENTS_0)) in
  create_alerts DT_CTRL_100Hz EVENT_NAME_0 [ET.WARNING] None w = Raise KeyError w
  ∧ any (EVENTS w) ET.WARNING (self w) = false
  ∧ name <$> to_msg (EVENTS w) (self w) = [unknown_event].
Proof. split; [|split]; vm_compute; reflexivity. Qed.



Lemma create_alerts_idempotent_witness :
  let w := world_0 (add EventName.vehicleModelInvalid false (Events_init EVENTS_0)) in
  let event_types := [ET.SOFT_DISABLE; ET.NO_ENTRY] in
  let callback_args := Some [PyObject 0; PyObject 1; PyBool true; PyInt 300] in
  ∃ refs1 w1,
    create_alerts DT_CTRL_100Hz EVENT_NAME_0 event_types callback_args w = Ok refs1 w1
    ∧ ∃ refs2 w2,
        create_alerts DT_CTRL_100Hz EVENT_NAME_0 event_types callback_args w1
          = Ok refs2 w2
        ∧ self w1 = self w ∧ self w2 = self w
        ∧ Forall (λ r, is_Some (deref w1 r)) refs1
        ∧ deref w2 <$> refs2 = deref w1 <$> refs1
        ∧ deref w2 <$> refs1 = deref w1 <$> refs1.
Proof.
  intros w event_types callback_args. eexists _, _.
  split; [vm_compute; reflexivity|].
  apply create_alerts_idempotent. vm_compute. reflexivity.
Defined.

(** The two calls of the witness: the callback builds a new object each
    time, the stored alert is the same object both times. *)
Example create_alerts_twice :
  let w := world_0 (add EventName.vehicleModelInvalid false (Events_init EVENTS_0)) in
  let event_types := [ET.SOFT_DISABLE; ET.NO_ENTRY] in
  let callback_args := Some [PyObject 0; PyObject 1; PyBool true; PyInt 300] in
  ∃ w1 w2,
    create_alerts DT_CTRL_100Hz EVENT_NAME_0 event_types callback_args w
      = Ok [Allocated 0; InCatalog EventName.vehicleModelInvalid ET.NO_ENTRY] w1
    ∧ create_alerts DT_CTRL_100Hz EVENT_NAME_0 event_types callback_args w1
      = Ok [Allocated 1; InCatalog EventName.vehicleModelInvalid ET.NO_ENTRY] w2
    ∧ alert_type <$> deref w1 (Allocated 0) = Some "vehicleModelInvalid/softDisable"
    ∧ deref w2 (Allocated 1) = deref w1 (Allocated 0).
Proof.
  intros w event_types callback_args. eexists _, _.
  split; [vm_compute; reflexivity|]. split; [vm_compute; reflexivity|].
  split; vm_compute; reflexivity.
Qed.

(** * Further properties of the module *)

(** ** The lists and counters of an [Events] instance *)

Section EventsInvariants.
Context {PyVal : Type}.
Implicit Types (self : Events) (e : EventName) (msg : list CarEvent).
Implicit Types (EVENTS : gmap N (gmap string (CatalogEntry PyVal))).

(** X1. In every instance a process can hold, the static list is a sublist
    of the active list: each static identifier is active, in the same order
    and with at least the same number of occurrences. *)
Theorem static_events_sublist_of_events EVENTS self :
  reachable EVENTS self → static_events self `sublist_of` events self.
Proof.
  induction 1 as [|c self _ IH]; [done|].
  destruct c as [ev st| |msg]; simpl.
  - destruct st; [by apply sublist_app|by apply sublist_inserts_r].
  - done.
  - destruct (add_from_msg_fields msg self) as (-> & -> & _).
    by apply sublist_inserts_r.
Qed.

Lemma iter_clear_static self e (k n : nat) :
  events_prev self !! e = Some k →
  events_prev (Nat.iter n clear (add e true self)) !! e = Some (k + n)%nat
  ∧ e ∈ events (Nat.iter n clear (add e true self))
  ∧ e ∈ static_events (Nat.iter n clear (add e true self)).
Proof.
  intros Hk. induction n as [|n (IHp & IHa & IHs)].
  - simpl. rewrite Nat.add_0_r. split; [done|]. split; apply elem_of_app; right;
      apply list_elem_of_here.
  - change (Nat.iter (S n) clear (add e true self))
      with (clear (Nat.iter n clear (add e true self))).
    rewrite lookup_events_prev_clear, IHp. simpl.
    rewrite bool_decide_eq_true_2 by done.
    split; [f_equal; lia|]. done.
Qed.

(** X2. After [add(e, static=True)], each [clear()] adds one to the streak
    counter of [e]: with the counter at [k] before, it is [k + n] after [n]
    calls of [clear()], and it is never reset. *)
Theorem static_event_streak_grows self e (k n : nat) :
  events_prev self !! e = Some k →
  events_prev (Nat.iter n clear (add e true self)) !! e = Some (k + n)%nat.
Proof. intros Hk. by destruct (iter_clear_static self e k n Hk) as [? _]. Qed.

(** X3. [clear()] looks at which identifiers are active, not at how often
    or in which order: two instances with the same counters and the same
    active identifiers have the same counters after [clear()]; so asserting
    an identifier a second time in a cycle does not change any counter. *)
Theorem clear_counts_membership_only :
  (∀ self1 self2,
     (∀ e, e ∈ events self1 ↔ e ∈ events self2) →
     events_prev self1 = events_prev self2 →
     events_prev (clear self1) = events_prev (clear self2))
  ∧ (∀ self e (static1 static2 : bool),
       events_prev (clear (add e static2 (add e static1 self)))
       = events_prev (clear (add e static1 self))).
Proof.
  assert (Hgen : ∀ self1 self2,
     (∀ e, e ∈ events self1 ↔ e ∈ events self2) →
     events_prev self1 = events_prev self2 →
     events_prev (clear self1) = events_prev (clear self2)).
  { intros self1 self2 Hmem Hprev. apply map_eq. intros e.
    rewrite !lookup_events_prev_clear, Hprev.
    destruct (events_prev self2 !! e); [|done]. simpl.
    by rewrite (bool_decide_ext _ _ (Hmem e)). }
  split; [exact Hgen|].
  intros self e static1 static2. apply Hgen; [|done].
  intros e'. simpl. rewrite !elem_of_app, !list_elem_of_singleton. tauto.
Qed.

Lemma counters_bounded (cs : list method_call) self (b : nat) :
  map_Forall (λ _ v, v ≤ b)%nat (events_prev self) →
  map_Forall (λ _ v, v ≤ b + count_clears cs)%nat (events_prev (run_calls cs self)).
Proof.
  revert self b. induction cs as [|c cs IH]; intros self b Hb.
  - simpl. intros e v Hv. specialize (Hb e v Hv). simpl in Hb. lia.
  - change (run_calls (c :: cs) self) with (run_calls cs (run_call c self)).
    destruct c as [ev st| |msg].
    + apply (IH (add ev st self) b). exact Hb.
    + change (count_clears (call_clear :: cs)) with (S (count_clears cs)).
      replace (b + S (count_clears cs))%nat with (S b + count_clears cs)%nat by lia.
      apply IH. intros e v Hv.
      change (run_call call_clear self) with (clear self) in Hv.
      rewrite lookup_events_prev_clear in Hv.
      destruct (events_prev self !! e) as [v0|] eqn:Hv0; [|done].
      specialize (Hb e v0 Hv0). simpl in Hb, Hv. injection Hv as <-.
      case_bool_decide; lia.
    + apply (IH (add_from_msg msg self) b). simpl.
      by destruct (add_from_msg_fields msg self) as (_ & _ & ->).
Qed.

(** X4. A streak counter never exceeds the number of [clear()] calls made
    since [Events()]. *)
Theorem streak_at_most_number_of_clears EVENTS (cs : list method_call) :
  map_Forall (λ _ v, v ≤ count_clears cs)%nat
    (events_prev (run_calls cs (Events_init EVENTS))).
Proof.
  apply (counters_bounded cs (Events_init EVENTS) 0).
  intros e v Hv. unfold Events_init in Hv. simpl in Hv.
  rewrite lookup_fmap in Hv. destruct (EVENTS !! e); [|done].
  simpl in Hv. injection Hv as <-. done.
Qed.

(** ** The wire form *)

Lemma set_flags_flags (X : gset string) (event : CarEvent) :
  flags (set_fold CarEvent_set_flag event X) = X ∪ flags event.
Proof.
  unfold set_fold. simpl.
  assert (Hl : ∀ l : list string,
             flags (foldr CarEvent_set_flag event l) = list_to_set l ∪ flags event).
  { induction l as [|x l IH]; simpl.
    - by rewrite (left_id_L ∅ (∪)).
    - rewrite IH. by rewrite (assoc_L (∪)). }
  rewrite Hl. by rewrite list_to_set_elements_L.
Qed.

Lemma to_msg_lookup EVENTS self :
  Forall2 (λ e m, name m = e ∧ flags m = dom (default ∅ (EVENTS !! e)))
    (events self) (to_msg EVENTS self).
Proof.
  unfold to_msg.
  assert (gen : ∀ l l0 ret,
    Forall2 (λ e m, name m = e ∧ flags m = dom (default ∅ (EVENTS !! e))) l0 ret →
    Forall2 (λ e m, name m = e ∧ flags m = dom (default ∅ (EVENTS !! e))) (l0 ++ l)
      (foldl
        (λ ret event_name,
           ret ++ [set_fold CarEvent_set_flag
                     {| name := event_name; flags := flags CarEvent_new_message |}
                     (dom (default ∅ (EVENTS !! event_name)) : gset string)])
        ret l)).
  { induction l as [|x l IH]; intros l0 ret H0; simpl.
    - by rewrite app_nil_r.
    - rewrite (cons_middle x l0 l), app_assoc. apply IH.
      apply Forall2_app; [done|]. constructor; [|constructor].
      rewrite set_flags_name, set_flags_flags. simpl.
      by rewrite (right_id_L ∅ (∪)). }
  apply (gen (events self) [] []). constructor.
Qed.

(** X5. [to_msg] builds one message for each active identifier, in order;
    the message carries the identifier and exactly the flags of the event
    types the catalog has for it, so an identifier outside the catalog is
    kept, with no flag. *)
Theorem to_msg_flags_are_catalog_keys EVENTS self :
  length (to_msg EVENTS self) = length (events self)
  ∧ Forall2
      (λ e m, name m = e
              ∧ (∀ et, et ∈ flags m ↔ is_Some (slot EVENTS e et))
              ∧ (EVENTS !! e = None → flags m = ∅))
      (events self) (to_msg EVENTS self).
Proof.
  pose proof (to_msg_lookup EVENTS self) as H. split.
  - symmetry. by eapply Forall2_length.
  - eapply list.Forall2_impl; [exact H|]. intros e m [Hn Hf].
    split; [done|]. rewrite Hf. split.
    + intros et. rewrite elem_of_dom. unfold slot.
      destruct (EVENTS !! e); simpl; [done|].
      rewrite lookup_empty. split; intros [? ?]; done.
    + intros ->. simpl. apply dom_empty_L.
Qed.

Lemma any_true_iff EVENTS (et : string) self :
  any EVENTS et self = true
  ↔ ∃ e, e ∈ events self ∧ is_Some (slot EVENTS e et).
Proof.
  unfold any. rewrite existsb_exists. split.
  - intros (e & He & Hb). exists e. split; [by apply list_elem_of_In|].
    apply bool_decide_eq_true in Hb. apply elem_of_dom in Hb.
    unfold slot. by destruct (EVENTS !! e).
  - intros (e & He & Hs). exists e. split; [by apply list_elem_of_In|].
    apply bool_decide_eq_true. apply elem_of_dom.
    unfold slot in Hs. by destruct (EVENTS !! e).
Qed.

(** X6. A consumer that has the messages of [to_msg] and not the catalog
    can answer [any]: [any(event_type)] is true exactly when one of the
    messages has the flag [event_type]. *)
Theorem any_from_wire_flags EVENTS (et : string) self :
  any EVENTS et self = true ↔ ∃ m, m ∈ to_msg EVENTS self ∧ et ∈ flags m.
Proof.
  rewrite any_true_iff. pose proof (to_msg_lookup EVENTS self) as H. split.
  - intros (e & [i Hi]%list_elem_of_lookup & Hs).
    destruct (Forall2_lookup_l _ _ _ _ _ H Hi) as (m & Hm & _ & Hf).
    exists m. split; [by eapply list_elem_of_lookup_2|].
    rewrite Hf. apply elem_of_dom. unfold slot in Hs. by destruct (EVENTS !! e).
  - intros (m & [i Hi]%list_elem_of_lookup & Hin).
    destruct (Forall2_lookup_r _ _ _ _ _ H Hi) as (e & He & _ & Hf).
    exists e. split; [by eapply list_elem_of_lookup_2|].
    rewrite Hf in Hin. apply elem_of_dom in Hin.
    unfold slot. by destruct (EVENTS !! e).
Qed.
End EventsInvariants.

Lemma static_events_sublist_of_events_witness :
  static_events (add EventName.gasPressed true
                   (add EventName.reverseGear false (Events_init EVENTS_0)))
  `sublist_of`
  events (add EventName.gasPressed true
            (add EventName.reverseGear false (Events_init EVENTS_0))).
Proof.
  apply (static_events_sublist_of_events EVENTS_0).
  apply (reachable_call _ (call_add EventName.gasPressed true)).
  apply (reachable_call _ (call_add EventName.reverseGear false)).
  apply reachable_init.
Defined.

Lemma static_event_streak_grows_witness :
  events_prev (Nat.iter 5 clear (add EventName.gasPressed true (Events_init EVENTS_0)))
    !! EventName.gasPressed = Some (0 + 5)%nat.
Proof. apply static_event_streak_grows. vm_compute. reflexivity. Defined.

(** ** The comparison of alerts as an order *)

Lemma Priority_value_inj (p q : Priority) : Priority_value p = Priority_value q → p = q.
Proof. destruct p, q; simpl; intros H; try reflexivity; lia. Qed.

(** X14. [__gt__] is a strict order on alerts that ranks them by priority
    alone: no alert is above itself, the relation is transitive and never
    holds in both directions, and two alerts neither of which is above the
    other have the same priority. *)
Theorem Alert_gt_strict_order (a b c : Alert) :
  Alert_gt a a = false
  ∧ (Alert_gt a b = true → Alert_gt b c = true → Alert_gt a c = true)
  ∧ (Alert_gt a b = true → Alert_gt b a = false)
  ∧ (Alert_gt a b = false → Alert_gt b a = false → priority a = priority b).
Proof.
  unfold Alert_gt. rewrite !bool_decide_eq_true, !bool_decide_eq_false.
  split; [lia|]. split; [lia|]. split; [lia|].
  intros H1 H2. apply Priority_value_inj. lia.
Qed.

(** ** Rounding to cycles *)



Lemma Qc_of_Z_lt_r (z : Z) (x : Qc) : (x < Qc_of_Z z)%Qc ↔ (x < inject_Z z)%Q.
Proof. reflexivity. Qed.





Lemma Qcmult_div_lt_r (DT x y : Qc) :
  (0 < DT)%Qc → (y / DT < x)%Qc ↔ (y < DT * x)%Qc.
Proof.
  intros Hdt. rewrite (Qcmult_lt_mono_pos_l (y / DT) x DT Hdt).
  rewrite Qcmult_div_r; [done|]. intros ->. by apply Qclt_not_eq in Hdt.
Qed.

(** X15. At the control period of 0.01 s a duration of [k] hundredths of a
    second, for [k] up to 10000, holds [k] whole periods in exact
    arithmetic, and [Alert.__init__] stores [k] cycles or one cycle less:
    the quotient of the two floats can fall just below the whole number. *)
Theorem Alert_init_duration_hundredths
    (t1 t2 : string) (st : AlertStatus) (sz : AlertSize)
    (p : Priority) (va aa : string) (rate d : Qc) (k : Z) :
  0 ≤ k ≤ 10000 →
  let c := duration (Alert_init DT_CTRL_100Hz t1 t2 st sz p va aa
                       (Q2Qc (k # 100)) rate d) in
  (c = k ∨ c = k - 1)
  ∧ floor (Q2Qc (k # 100) / DT_CTRL_100Hz) = k.
Proof.
  intros Hk. cbv zeta. split.
  - unfold Alert_init. cbn [duration].
    assert (Hall :
      forallb (λ k, let c := default 0 (cycles DT_CTRL_100Hz (Q2Qc (k # 100))) in
                    (c =? k) || (c =? k - 1))
        (seqZ 0 10001) = true) by (vm_compute; reflexivity).
    rewrite forallb_forall in Hall.
    assert (Hin : In k (seqZ 0 10001))
      by (apply list_elem_of_In, elem_of_seqZ; lia).
    apply Hall in Hin. cbv zeta in Hin.
    apply orb_true_iff in Hin as [H|H]; apply Z.eqb_eq in H; [by left|by right].
  - unfold floor, DT_CTRL_100Hz, Qcdiv, Qcmult, Qcinv. cbn [this Q2Qc].
    rewrite !Qred_correct.
    assert (Hq : ((k # 100) * / (1 # 100) == inject_Z k)%Q)
      by (unfold Qeq; simpl; lia).
    rewrite Hq. apply Qfloor_Z.
Qed.

Lemma Alert_init_duration_hundredths_witness :
  let c := duration (Alert_init DT_CTRL_100Hz "" "" status_normal size_small LOWEST
                       "none" "none" (Q2Qc (29 # 100)) 0%Qc (Qc_of_Z 1)) in
  (c = 29 ∨ c = 29 - 1)
  ∧ floor (Q2Qc (29 # 100) / DT_CTRL_100Hz) = 29.
Proof.
  apply (Alert_init_duration_hundredths "" "" status_normal size_small LOWEST
           "none" "none" 0%Qc (Qc_of_Z 1) 29).
  lia.
Defined.

(** ** The callbacks of a soft disable *)




(** ** The table [EVENT_NAME] *)

Lemma EVENT_NAME_of_snoc (enumerants : list (string * N)) (k : string) (v : N) :
  EVENT_NAME_of (enumerants ++ [(k, v)]) = <[v := k]> (EVENT_NAME_of enumerants).
Proof. unfold EVENT_NAME_of. by rewrite foldl_app. Qed.

(** X16. [EVENT_NAME] inverts the enumerant table: when no two enumerants
    have the same value, [EVENT_NAME[v]] is [k] exactly for the items
    [(k, v)] of the table, and a value that no enumerant has is not a key. *)
Theorem EVENT_NAME_inverts_enumerants (enumerants : list (string * N))
    (k : string) (v : N) :
  NoDup enumerants.*2 →
  (EVENT_NAME_of enumerants !! v = Some k ↔ (k, v) ∈ enumerants)
  ∧ (v ∉ enumerants.*2 → EVENT_NAME_of enumerants !! v = None).
Proof.
  revert k v. induction enumerants as [|[k0 v0] l IH] using rev_ind; intros k v Hnd.
  - split; [|done]. unfold EVENT_NAME_of. simpl. rewrite lookup_empty.
    split; [done|]. by intros ?%elem_of_nil.
  - rewrite fmap_app in Hnd. apply list.NoDup_app in Hnd as (Hl & Hdis & _).
    rewrite EVENT_NAME_of_snoc. split.
    + destruct (decide (v0 = v)) as [->|Hne].
      * rewrite lookup_insert_eq. split.
        -- intros [= ->]. apply elem_of_app. right. apply list_elem_of_here.
        -- intros [Hin|Hin%list_elem_of_singleton]%elem_of_app; [|congruence].
           exfalso. apply (Hdis v); [|apply list_elem_of_here].
           apply list_elem_of_fmap. by exists (k, v).
      * rewrite lookup_insert_ne by done. rewrite (proj1 (IH k v Hl)).
        rewrite elem_of_app, list_elem_of_singleton. split; [tauto|].
        intros [?|Heq]; [done|]. injection Heq as _ ?. congruence.
    + rewrite fmap_app. intros Hnot.
      rewrite lookup_insert_ne.
      * apply (proj2 (IH k v Hl)). intros Hin. apply Hnot, elem_of_app. by left.
      * intros ->. apply Hnot, elem_of_app. right. apply list_elem_of_here.
Qed.

Lemma EVENT_NAME_inverts_enumerants_witness :
  (EVENT_NAME_of [("reverseGear", 10%N); ("controlsMismatch", 22%N)] !! 22%N
     = Some "controlsMismatch"
   ↔ ("controlsMismatch", 22%N) ∈ [("reverseGear", 10%N); ("controlsMismatch", 22%N)])
  ∧ (22%N ∉ [("reverseGear", 10%N); ("controlsMismatch", 22%N)].*2 →
     EVENT_NAME_of [("reverseGear", 10%N); ("controlsMismatch", 22%N)] !! 22%N = None).
Proof.
  apply EVENT_NAME_inverts_enumerants. simpl.
  apply list.NoDup_cons. split; [|apply list.NoDup_singleton].
  intros [=]%list_elem_of_singleton.
Defined.

(** ** More on [create_alerts] *)

Section CreateAlertsMore.
Context {PyVal : Type}.
Variable DT_CTRL : Qc.
Variable EVENT_NAME : gmap N string.
Implicit Types (w v : World PyVal) (a : Alert) (r : AlertRef).
Implicit Types (e : EventName) (et : string) (ret : list AlertRef).
Implicit Types (args : list PyVal) (event_types : list string).

(** *** Calls that return nothing *)

Lemma inner_loop_no_entry args (types : gset string) e event_types ret w :
  (∀ et, et ∈ event_types → et ∉ types) →
  for_each event_types (create_alert DT_CTRL EVENT_NAME args types e) ret w = Ok ret w.
Proof.
  induction event_types as [|et ets IH]; intros Hnot; [done|].
  rewrite for_each_cons, create_alert_unfold.
  rewrite bool_decide_eq_false_2 by (apply Hnot, list_elem_of_here).
  apply IH. intros et' Hin. by apply Hnot, list_elem_of_further.
Qed.

Lemma outer_loop_no_entry args event_types (evs : list EventName) ret w :
  (∀ e, e ∈ evs →
     ∃ d : gmap string (CatalogEntry PyVal),
       EVENTS w !! e = Some d ∧ ∀ et, et ∈ event_types → d !! et = None) →
  for_each evs
    (λ e ret,
       w ← get_world;
       types ← subscript (EVENTS w) e;
       for_each event_types
         (create_alert DT_CTRL EVENT_NAME args (dom types) e) ret) ret w
  = Ok ret w.
Proof.
  induction evs as [|e evs IH]; intros Hall; [done|].
  rewrite for_each_cons, outer_body_unfold.
  destruct (Hall e (list_elem_of_here _ _)) as (d & -> & Hd).
  rewrite inner_loop_no_entry.
  - apply IH. intros e' Hin. by apply Hall, list_elem_of_further.
  - intros et Hin. by apply not_elem_of_dom, Hd.
Qed.

(** X8. With an empty list of event types [create_alerts] still looks up
    every active identifier in the catalog: it returns the empty list and
    changes nothing when they are all keys, and raises [KeyError], with
    nothing changed, when one of them is not. *)
Theorem create_alerts_no_event_types (callback_args : option (list PyVal)) w :
  create_alerts DT_CTRL EVENT_NAME [] callback_args w
  = if decide (Forall (λ e, is_Some (EVENTS w !! e)) (events (self w)))
    then Ok [] w else Raise KeyError w.
Proof.
  rewrite create_alerts_unfold. generalize (@nil AlertRef) as ret.
  induction (events (self w)) as [|e evs IH]; intros ret.
  - by rewrite decide_True by constructor.
  - rewrite for_each_cons, outer_body_unfold.
    destruct (EVENTS w !! e) as [d|] eqn:Hd.
    + simpl. rewrite IH. destruct (decide (Forall _ evs)) as [Hall|Hall].
      * rewrite decide_True; [done|]. constructor; [by rewrite Hd|done].
      * rewrite decide_False; [done|]. by intros [_ ?]%list.Forall_cons.
    + rewrite decide_False; [done|].
      intros [Hs _]%list.Forall_cons. rewrite Hd in Hs. by destruct Hs.
Qed.

(** X7. [any] tells whether [create_alerts] can return something: when
    every active identifier is a key of the catalog and [any(et)] is false
    for each requested event type, the call returns the empty list and
    changes nothing; and every alert a call returns comes with a requested
    event type for which [any] is true. *)
Theorem create_alerts_empty_without_any event_types
    (callback_args : option (list PyVal)) w :
  ((∀ e, e ∈ events (self w) → is_Some (EVENTS w !! e)) →
   (∀ et, et ∈ event_types → any (EVENTS w) et (self w) = false) →
   create_alerts DT_CTRL EVENT_NAME event_types callback_args w = Ok [] w)
  ∧ (∀ refs w' r,
       create_alerts DT_CTRL EVENT_NAME event_types callback_args w = Ok refs w' →
       r ∈ refs →
       ∃ et, et ∈ event_types ∧ any (EVENTS w) et (self w) = true).
Proof.
  split.
  - intros Hknown Hany. rewrite create_alerts_unfold.
    apply outer_loop_no_entry. intros e He.
    destruct (Hknown e He) as [d Hd]. exists d. split; [done|].
    intros et Het. specialize (Hany et Het).
    destruct (d !! et) as [x|] eqn:Hx; [|done].
    assert (Htrue : any (EVENTS w) et (self w) = true).
    { apply any_true_iff. exists e. split; [done|].
      unfold slot. rewrite Hd. simpl. by rewrite Hx. }
    congruence.
  - intros refs w' r Hrun [i Hi]%list_elem_of_lookup.
    pose proof (create_alerts_resolves _ _ _ _ _ _ _ Hrun) as Hres.
    destruct (Forall2_lookup_r _ _ _ _ _ Hres Hi) as ([e et] & Hs & _).
    apply list_elem_of_lookup_2 in Hs.
    apply list_elem_of_filter in Hs as [_ Hc].
    apply elem_of_candidates in Hc as (He & Het & Hslot).
    exists et. split; [done|]. apply any_true_iff. eauto.
Qed.

(** *** A callback that raises *)

Lemma inner_loop_callback_raises w0 args (types : gset string) e et
    (callback : AlertCallbackType PyVal) (x : exn) event_types ret w :
  similar w0 w →
  (∀ et', et' ∈ types ↔ is_Some (slot (EVENTS w0) e et')) →
  et ∈ event_types →
  slot (EVENTS w0) e et = Some (Dynamic callback) →
  callback args = Raises x →
  ¬ returned (for_each event_types
                (create_alert DT_CTRL EVENT_NAME args types e) ret w).
Proof.
  intros Hsim Htypes Hin Hslot Hcall. revert ret w Hsim Hin.
  induction event_types as [|et0 ets IH]; intros ret w Hsim Hin.
  - by apply elem_of_nil in Hin.
  - rewrite for_each_cons.
    pose proof (create_alert_frame DT_CTRL EVENT_NAME args types e et0 ret w) as Hf.
    destruct (create_alert DT_CTRL EVENT_NAME args types e et0 ret w)
      as [ret1 w1|x1 w1] eqn:Hstep; [|by intros []].
    simpl in Hf. destruct (decide (et0 = et)) as [->|Hne].
    + exfalso. rewrite create_alert_unfold in Hstep.
      rewrite bool_decide_eq_true_2 in Hstep by (apply Htypes; by rewrite Hslot).
      rewrite (slot_similar_Dynamic w w0 e et callback (similar_sym _ _ Hsim) Hslot)
        in Hstep.
      by rewrite Hcall in Hstep.
    + apply IH.
      * destruct Hsim as [Hs Hc]. destruct Hf as (Hs1 & Hc1 & _). split; congruence.
      * apply elem_of_cons in Hin as [->|Hin]; [done|done].
Qed.

Lemma outer_loop_callback_raises w0 args event_types e et
    (callback : AlertCallbackType PyVal) (x : exn) (evs : list EventName) ret w :
  similar w0 w →
  e ∈ evs → et ∈ event_types →
  slot (EVENTS w0) e et = Some (Dynamic callback) →
  callback args = Raises x →
  ¬ returned (for_each evs
    (λ e ret,
       w ← get_world;
       types ← subscript (EVENTS w) e;
       for_each event_types
         (create_alert DT_CTRL EVENT_NAME args (dom types) e) ret) ret w).
Proof.
  intros Hsim Hin Het Hslot Hcall. revert ret w Hsim Hin.
  induction evs as [|e0 evs IH]; intros ret w Hsim Hin.
  - by apply elem_of_nil in Hin.
  - rewrite for_each_cons.
    pose proof (outer_body_frame DT_CTRL EVENT_NAME args event_types e0 ret w) as Hf.
    rewrite outer_body_unfold in *.
    destruct (EVENTS w !! e0) as [d|] eqn:Hd; [|by intros []].
    destruct (decide (e0 = e)) as [->|Hne].
    + pose proof (inner_loop_callback_raises w0 args (dom d) e et callback x
                    event_types ret w Hsim) as Hinner.
      destruct (for_each event_types _ ret w) as [ret1 w1|x1 w1]; [|by intros []].
      exfalso. apply Hinner; try done.
      destruct (unstamped_lookup_Some _ _ _ _ (eq_sym (proj2 Hsim)) Hd)
        as (d0 & Hd0 & Hiff).
      intros et'. unfold slot. rewrite Hd0. simpl.
      rewrite elem_of_dom. apply Hiff.
    + destruct (for_each event_types _ ret w) as [ret1 w1|x1 w1]; [|by intros []].
      simpl in Hf. apply IH.
      * destruct Hsim as [Hs Hc]. destruct Hf as (Hs1 & Hc1 & _). split; congruence.
      * apply elem_of_cons in Hin as [->|Hin]; [done|done].
Qed.

(** X9. An exception of a callback is not caught: when an active
    identifier has, under a requested event type, a callback that raises on
    the arguments, [create_alerts] raises and returns no alert at all. *)
Theorem create_alerts_callback_raises event_types
    (callback_args : option (list PyVal)) w e et
    (callback : AlertCallbackType PyVal) (x : exn) :
  e ∈ events (self w) → et ∈ event_types →
  slot (EVENTS w) e et = Some (Dynamic callback) →
  callback (default [] callback_args) = Raises x →
  ∃ x' w', create_alerts DT_CTRL EVENT_NAME event_types callback_args w = Raise x' w'.
Proof.
  intros Hin Het Hslot Hcall.
  pose proof (outer_loop_callback_raises w (default [] callback_args) event_types
                e et callback x (events (self w)) [] w
                ltac:(by split) Hin Het Hslot Hcall) as Hraise.
  rewrite <- create_alerts_unfold in Hraise.
  destruct (create_alerts _ _ _ _ w) as [refs w'|x' w']; [by destruct Hraise|].
  by exists x', w'.
Qed.

(** *** What is returned *)


End CreateAlertsMore.

(** ** The cycle in which a delayed alert appears *)

Section CreateAlertsTiming.
Context {PyVal : Type}.
Variable DT_CTRL : Qc.
Variable EVENT_NAME : gmap N string.
Implicit Types (w v : World PyVal) (a : Alert) (r : AlertRef).
Implicit Types (e : EventName) (et : string) (ret : list AlertRef).
Implicit Types (args : list PyVal) (event_types : list string).




End CreateAlertsTiming.

(** ** Resolving a longer active list *)

Section CreateAlertsCompose.
Context {PyVal : Type}.
Variable DT_CTRL : Qc.
Variable EVENT_NAME : gmap N string.
Implicit Types (w v : World PyVal) (a : Alert) (r : AlertRef).
Implicit Types (e : EventName) (et : string) (ret pre : list AlertRef).
Implicit Types (args : list PyVal) (event_types : list string).
Implicit Types (l : list EventName).

Lemma with_events_self w : with_events (events (self w)) w = w.
Proof. by destruct w as [C h []]. Qed.

Lemma for_each_app {A S} (l1 l2 : list A) (body : A → S → M PyVal S) (s : S) w :
  for_each (l1 ++ l2) body s w
  = match for_each l1 body s w with
    | Ok s' w' => for_each l2 body s' w'
    | Raise x w' => Raise x w'
    end.
Proof.
  revert s w. induction l1 as [|x l1 IH]; intros s w; [done|].
  rewrite <- app_comm_cons, !for_each_cons.
  destruct (body x s w) as [s' w'|ex w']; [apply IH|done].
Qed.

(** A loop commutes with a change of the local variables and of the state
    that each run of its body commutes with. *)
Lemma for_each_res_map {A S} (g : S → S) (f : World PyVal → World PyVal)
    (body : A → S → M PyVal S) :
  (∀ x s w, body x (g s) (f w) = res_map g f (body x s w)) →
  ∀ (l : list A) s w,
    for_each l body (g s) (f w) = res_map g f (for_each l body s w).
Proof.
  intros Hbody. induction l as [|x l IH]; intros s w; [done|].
  rewrite !for_each_cons, Hbody.
  destruct (body x s w) as [s' w'|ex w']; [apply IH|done].
Qed.

(** The body of the inner loop reads neither the active list nor the
    alerts collected so far. *)
Lemma create_alert_res_map args (types : gset string) e et pre l ret w :
  create_alert DT_CTRL EVENT_NAME args types e et (pre ++ ret) (with_events l w)
  = res_map (app pre) (with_events l)
      (create_alert DT_CTRL EVENT_NAME args types e et ret w).
Proof.
  rewrite !create_alert_unfold. destruct (bool_decide _); [|done].
  change (EVENTS (with_events l w)) with (EVENTS w).
  destruct (slot (EVENTS w) e et) as [[a|c]|]; [| |done].
  - unfold gate_then.
    change (events_prev (self (with_events l w))) with (events_prev (self w)).
    destruct (events_prev (self w) !! e); [|done].
    destruct (bool_decide _); [|done].
    destruct (EVENT_NAME !! e); [|done].
    simpl. by rewrite app_assoc.
  - destruct (c args); [|done]. unfold gate_then.
    change (events_prev (self (alloc a (with_events l w))))
      with (events_prev (self w)).
    change (events_prev (self (alloc a w))) with (events_prev (self w)).
    destruct (events_prev (self w) !! e); [|done].
    destruct (bool_decide _); [|done].
    destruct (EVENT_NAME !! e); [|done].
    simpl. by rewrite app_assoc.
Qed.

Lemma outer_body_res_map args event_types e pre l ret w :
  (w0 ← get_world;
   types ← subscript (EVENTS w0) e;
   for_each event_types
     (create_alert DT_CTRL EVENT_NAME args (dom types) e) (pre ++ ret))
    (with_events l w)
  = res_map (app pre) (with_events l)
      ((w0 ← get_world;
        types ← subscript (EVENTS w0) e;
        for_each event_types
          (create_alert DT_CTRL EVENT_NAME args (dom types) e) ret) w).
Proof.
  rewrite !outer_body_unfold. change (EVENTS (with_events l w)) with (EVENTS w).
  destruct (EVENTS w !! e) as [types|]; [|done].
  apply (for_each_res_map (app pre) (with_events l)).
  intros et s w1. apply create_alert_res_map.
Qed.

Lemma outer_loop_res_map args event_types (evs : list EventName) pre l ret w :
  for_each evs
    (λ e ret,
       w ← get_world;
       types ← subscript (EVENTS w) e;
       for_each event_types
         (create_alert DT_CTRL EVENT_NAME args (dom types) e) ret)
    (pre ++ ret) (with_events l w)
  = res_map (app pre) (with_events l)
      (for_each evs
         (λ e ret,
            w ← get_world;
            types ← subscript (EVENTS w) e;
            for_each event_types
              (create_alert DT_CTRL EVENT_NAME args (dom types) e) ret)
         ret w).
Proof.
  apply (for_each_res_map (app pre) (with_events l)
           (λ e ret,
              w ← get_world;
              types ← subscript (EVENTS w) e;
              for_each event_types
                (create_alert DT_CTRL EVENT_NAME args (dom types) e) ret)).
  intros e s w1. apply outer_body_res_map.
Qed.

(** X17. Resolving the active list [l1 ++ l2] is resolving [l1] and then,
    in the state this has left, [l2]: when both calls return, the call on
    the whole list returns the alerts of the first followed by those of the
    second, and leaves the state the second has left. *)
Theorem create_alerts_app event_types (callback_args : option (list PyVal))
    l1 l2 w refs1 w1 refs2 w2 :
  create_alerts DT_CTRL EVENT_NAME event_types callback_args (with_events l1 w)
    = Ok refs1 w1 →
  create_alerts DT_CTRL EVENT_NAME event_types callback_args (with_events l2 w1)
    = Ok refs2 w2 →
  create_alerts DT_CTRL EVENT_NAME event_types callback_args (with_events (l1 ++ l2) w)
    = Ok (refs1 ++ refs2) (with_events (l1 ++ l2) w2).
Proof.
  rewrite !create_alerts_unfold.
  change (events (self (with_events l1 w))) with l1.
  change (events (self (with_events l2 w1))) with l2.
  change (events (self (with_events (l1 ++ l2) w))) with (l1 ++ l2).
  rewrite (outer_loop_res_map _ _ l1 [] l1 [] w).
  rewrite (outer_loop_res_map _ _ (l1 ++ l2) [] (l1 ++ l2) [] w).
  rewrite for_each_app.
  destruct (for_each l1 _ [] w) as [r1 w1'|x w1'] eqn:H1; [|done].
  intros [= -> <-].
  change (with_events l2 (with_events l1 w1')) with (with_events l2 w1').
  rewrite (outer_loop_res_map _ _ l2 [] l2 [] w1').
  pose proof (outer_loop_res_map (default [] callback_args) event_types l2 refs1
                (events (self w1')) [] w1') as Hpre.
  rewrite app_nil_r, with_events_self in Hpre. rewrite Hpre.
  destruct (for_each l2 _ [] w1') as [r2 w2'|x w2'] eqn:H2; [|done].
  intros [= -> <-]. reflexivity.
Qed.
End CreateAlertsCompose.

(** ** The further properties at concrete inputs *)

Lemma create_alerts_callback_raises_witness :
  let w := world_0 (add EventName.vehicleModelInvalid false (Events_init EVENTS_0)) in
  ∃ x' w',
    create_alerts DT_CTRL_100Hz EVENT_NAME_0 [ET.SOFT_DISABLE] None w = Raise x' w'.
Proof.
  intros w.
  apply (create_alerts_callback_raises DT_CTRL_100Hz EVENT_NAME_0 [ET.SOFT_DISABLE]
           None w EventName.vehicleModelInvalid ET.SOFT_DISABLE
           (soft_disable_alert DT_CTRL_100Hz tr_absent (tr_absent 42)) TypeError).
  - apply list_elem_of_here.
  - apply list_elem_of_here.
  - vm_compute. reflexivity.
  - reflexivity.
Defined.

(** Without [callback_args] the callback of [vehicleModelInvalid] is called
    with no argument and its [TypeError] comes out of [create_alerts]. *)
Example create_alerts_callback_TypeError :
  let w := world_0 (add EventName.vehicleModelInvalid false (Events_init EVENTS_0)) in
  create_alerts DT_CTRL_100Hz EVENT_NAME_0 [ET.SOFT_DISABLE] None w = Raise TypeError w.
Proof. vm_compute. reflexivity. Qed.




Lemma create_alerts_app_witness :
  let w := world_0 (Events_init EVENTS_0) in
  let l1 := [EventName.reverseGear] in
  let l2 := [EventName.vehicleModelInvalid] in
  ∃ refs1 w1 refs2 w2,
    create_alerts DT_CTRL_100Hz EVENT_NAME_0 [ET.NO_ENTRY] None (with_events l1 w)
      = Ok refs1 w1
    ∧ create_alerts DT_CTRL_100Hz EVENT_NAME_0 [ET.NO_ENTRY] None (with_events l2 w1)
      = Ok refs2 w2
    ∧ create_alerts DT_CTRL_100Hz EVENT_NAME_0 [ET.NO_ENTRY] None
        (with_events (l1 ++ l2) w)
      = Ok (refs1 ++ refs2) (with_events (l1 ++ l2) w2).
Proof.
  intros w l1 l2. eexists _, _, _, _.
  split; [vm_compute; reflexivity|]. split; [vm_compute; reflexivity|].
  eapply (create_alerts_app DT_CTRL_100Hz EVENT_NAME_0 [ET.NO_ENTRY] None l1 l2 w).
  - vm_compute. reflexivity.
  - vm_compute. reflexivity.
Defined.
